(** * ble_gatt_server: the GATT application of [server.py]

    A shallow embedding of the object tree the server exposes over D-Bus
    ([Application], [MyService], [MyCharacteristic], [NotifyCharacteristic]),
    of the command dispatch in [MyCharacteristic.WriteValue] and of the
    Wi-Fi scan parser [scan_networks], followed by the properties of the
    specification that concern them.

    Conventions.
    - Object paths, interface names, property names, UUIDs and flags are
      ASCII identifiers and are kept as [string].
    - Text that is decoded from a write, matched by a regular expression or
      sent in a notification is a Python [str]: a sequence of Unicode code
      points, [pystr].
    - A D-Bus byte array ([ay]) is a [list byte].
    - A method body runs in the monad [M]: it threads the mutable state,
      appends to a trace of observable events and may raise an exception.
    - Standard output is a UTF-8 text stream with the default error
      handler, which the messages of the program need: [print] fails on
      a line that holds a character without encoding. *)

From stdpp Require Import gmap strings list fin_maps pretty.
From Stdlib Require Import ZArith NArith Strings.Byte Strings.Ascii Floats.SpecFloat Lia.

Set Default Proof Using "Type".
Open Scope N_scope.

(** ** Text *)

(** A Python [str]: its code points. *)
Definition pystr := list N.

(** An ASCII literal of the source as a [pystr]. *)
Fixpoint lit (s : string) : pystr :=
  match s with
  | EmptyString => []
  | String a s' => N_of_ascii a :: lit s'
  end.

Arguments lit : simpl never.

Definition dquote : N := 34.
Definition newline : N := 10.

(** The same, for literals that contain double quotes: an apostrophe in
    [s] stands for a double quote. *)
Definition qlit (s : string) : pystr :=
  (λ c, if c =? 39 then dquote else c) <$> lit s.

Arguments qlit : simpl never.

#[global] Instance byte_eq_dec : EqDecision byte := Byte.byte_eq_dec.

Definition byte_of_N (n : N) : byte :=
  default "000"%byte (Byte.of_N (n mod 256)).

(** ** UTF-8, as [bytes.decode('utf-8')] and [str.encode()] do it (strict) *)
Module Utf8.

(** The payload of a continuation byte [10xxxxxx]. *)
Definition cont (b : byte) : option N :=
  let n := Byte.to_N b in
  if (0x80 <=? n) && (n <=? 0xBF) then Some (n - 0x80) else None.

(** A code point decoded from [len] bytes is accepted when it is not
    overlong, not a surrogate and at most U+10FFFF. *)
Definition is_surrogate (c : N) : bool := (0xD800 <=? c) && (c <=? 0xDFFF).

Definition accept (lo c : N) : option N :=
  if (lo <=? c) && negb (is_surrogate c) && (c <=? 0x10FFFF) then Some c else None.

Fixpoint decode (bs : list byte) : option pystr :=
  match bs with
  | [] => Some []
  | b0 :: r =>
    let n := Byte.to_N b0 in
    if n <? 0x80 then cons n <$> decode r
    else if (0xC0 <=? n) && (n <? 0xE0) then
      match r with
      | b1 :: r' =>
        c1 ← cont b1;
        c ← accept 0x80 ((n - 0xC0) * 64 + c1);
        cons c <$> decode r'
      | _ => None
      end
    else if (0xE0 <=? n) && (n <? 0xF0) then
      match r with
      | b1 :: b2 :: r' =>
        c1 ← cont b1; c2 ← cont b2;
        c ← accept 0x800 (((n - 0xE0) * 64 + c1) * 64 + c2);
        cons c <$> decode r'
      | _ => None
      end
    else if (0xF0 <=? n) && (n <? 0xF8) then
      match r with
      | b1 :: b2 :: b3 :: r' =>
        c1 ← cont b1; c2 ← cont b2; c3 ← cont b3;
        c ← accept 0x10000 ((((n - 0xF0) * 64 + c1) * 64 + c2) * 64 + c3);
        cons c <$> decode r'
      | _ => None
      end
    else None
  end.

Definition encode_char (c : N) : option (list byte) :=
  if c <? 0x80 then Some [byte_of_N c]
  else if c <? 0x800 then
    Some [byte_of_N (0xC0 + c / 64); byte_of_N (0x80 + c mod 64)]
  else if c <? 0x10000 then
    if is_surrogate c then None
    else Some [byte_of_N (0xE0 + c / 4096); byte_of_N (0x80 + (c / 64) mod 64);
               byte_of_N (0x80 + c mod 64)]
  else if c <? 0x110000 then
    Some [byte_of_N (0xF0 + c / 262144); byte_of_N (0x80 + (c / 4096) mod 64);
          byte_of_N (0x80 + (c / 64) mod 64); byte_of_N (0x80 + c mod 64)]
  else None.

Fixpoint encode (s : pystr) : option (list byte) :=
  match s with
  | [] => Some []
  | c :: s' => bs ← encode_char c; rest ← encode s'; Some (bs ++ rest)
  end.

End Utf8.

(** ** Character classes of the runtime's Unicode database (Unicode 14.0) *)
Module Unicode.

(** First code points of the runs of ten decimal digits (category Nd);
    the mathematical digits U+1D7CE..U+1D7FF form five such runs. *)
Definition decimal_runs : list N :=
  [0x30; 0x660; 0x6F0; 0x7C0; 0x966; 0x9E6; 0xA66; 0xAE6; 0xB66; 0xBE6;
   0xC66; 0xCE6; 0xD66; 0xDE6; 0xE50; 0xED0; 0xF20; 0x1040; 0x1090; 0x17E0;
   0x1810; 0x1946; 0x19D0; 0x1A80; 0x1A90; 0x1B50; 0x1BB0; 0x1C40; 0x1C50;
   0xA620; 0xA8D0; 0xA900; 0xA9D0; 0xA9F0; 0xAA50; 0xABF0; 0xFF10; 0x104A0;
   0x10D30; 0x11066; 0x110F0; 0x11136; 0x111D0; 0x112F0; 0x11450; 0x114D0;
   0x11650; 0x116C0; 0x11730; 0x118E0; 0x11950; 0x11C50; 0x11D50; 0x11DA0;
   0x16A60; 0x16AC0; 0x16B50; 0x1D7CE; 0x1D7D8; 0x1D7E2; 0x1D7EC; 0x1D7F6;
   0x1E140; 0x1E2F0; 0x1E950; 0x1FBF0].

(** [\d] of a [str] pattern. *)
Definition isdecimal (c : N) : bool :=
  existsb (λ lo, (lo <=? c) && (c <? lo + 10)) decimal_runs.

(** [str.isspace], the characters [str.strip()] removes. *)
Definition isspace (c : N) : bool :=
  ((0x09 <=? c) && (c <=? 0x0D)) || ((0x1C <=? c) && (c <=? 0x20))
  || (c =? 0x85) || (c =? 0xA0) || (c =? 0x1680)
  || ((0x2000 <=? c) && (c <=? 0x200A))
  || (c =? 0x2028) || (c =? 0x2029) || (c =? 0x202F) || (c =? 0x205F)
  || (c =? 0x3000).

End Unicode.

Fixpoint lstrip (s : pystr) : pystr :=
  match s with
  | c :: s' => if Unicode.isspace c then lstrip s' else s
  | [] => []
  end.

Definition rstrip (s : pystr) : pystr := reverse (lstrip (reverse s)).

(** [s.strip()] *)
Definition strip (s : pystr) : pystr := rstrip (lstrip s).

(** ** The two regular expressions of [scan_networks] *)
Module Re.

(** [literal p s]: what follows [p] when [s] starts with [p]. *)
Fixpoint literal (p s : pystr) : option pystr :=
  match p, s with
  | [], _ => Some s
  | a :: p', b :: s' => if a =? b then literal p' s' else None
  | _ :: _, [] => None
  end.

(** The longest prefix of decimal digits, for the greedy [\d+]. *)
Fixpoint digits (s : pystr) : pystr :=
  match s with
  | c :: s' => if Unicode.isdecimal c then c :: digits s' else []
  | [] => []
  end.

(** The class [[\da-fA-F:]]. *)
Definition address_char (c : N) : bool :=
  Unicode.isdecimal c || ((97 <=? c) && (c <=? 102))
  || ((65 <=? c) && (c <=? 70)) || (c =? 58).

(** A pattern tried at the start of [s]: the captured group and the
    number of characters the whole match spans. *)
Definition pattern := pystr → option (pystr * nat).

(** [Cell \d+ - Address: ([\da-fA-F:]{17})].  The character after the
    digits must be a space, so only the longest run of digits can match
    and [\d+] never has to give digits back. *)
Definition cell_re : pattern := λ s,
  r1 ← literal (lit "Cell ") s;
  let ds := digits r1 in
  if bool_decide (ds = []) then None
  else
    r2 ← literal (lit " - Address: ") (drop (length ds) r1);
    let group := take 17 r2 in
    if bool_decide (length group = 17%nat) && forallb address_char group
    then Some (group, (5 + length ds + 12 + 17)%nat)
    else None.

(** The lazy group [(.*?)] and the double quote that closes it: the
    characters up to the first double quote, none of them a newline. *)
Fixpoint upto_quote (s : pystr) : option pystr :=
  match s with
  | [] => None
  | c :: s' =>
    if c =? dquote then Some []
    else if c =? newline then None
    else cons c <$> upto_quote s'
  end.

(** [ESSID:"(.*?)"] *)
Definition essid_re : pattern := λ s,
  r ← literal (lit "ESSID:" ++ [dquote]) s;
  group ← upto_quote r;
  Some (group, (7 + length group + 1)%nat).

(** [p.findall(s)] for a pattern with one group whose matches are never
    empty: the groups of the leftmost non-overlapping matches.  [skip]
    counts the characters of the last match still to be passed. *)
Fixpoint findall_from (p : pattern) (skip : nat) (s : pystr) : list pystr :=
  match s with
  | [] => []
  | _ :: s' =>
    match skip with
    | S k => findall_from p k s'
    | O =>
      match p s with
      | Some (group, n) => group :: findall_from p (pred n) s'
      | None => findall_from p 0 s'
      end
    end
  end.

Definition findall (p : pattern) (s : pystr) : list pystr := findall_from p 0 s.

End Re.

(** ** Python values, as [json.loads] produces them *)

#[warnings="-register-all"]
Inductive pyvalue :=
| PyNone
| PyBool (b : bool)
| PyInt (z : Z)
| PyFloat (f : spec_float)
| PyStr (s : pystr)
| PyList (l : list pyvalue)
| PyDict (d : list (pystr * pyvalue)).

(** [bool(v)], the test behind [not v]. *)
Definition truthy (v : pyvalue) : bool :=
  match v with
  | PyNone => false
  | PyBool b => b
  | PyInt z => negb (z =? 0)%Z
  | PyFloat (S754_zero _) => false
  | PyFloat _ => true
  | PyStr s => negb (bool_decide (s = []))
  | PyList l => match l with [] => false | _ => true end
  | PyDict d => match d with [] => false | _ => true end
  end.

(** [d.get(key)] on the items of a dict. *)
Definition dict_get (d : list (pystr * pyvalue)) (key : pystr) : pyvalue :=
  match list_find (λ kv, kv.1 = key) d with
  | Some (_, (_, v)) => v
  | None => PyNone
  end.

(** ** D-Bus values and property maps *)

Inductive variant :=
| DString (s : string)
| DObjectPath (p : string)
| DBoolean (b : bool)
| DArray_s (l : list string)
| DArray_o (l : list string)
| DArray_y (l : list byte).

(** [{property: value}] and [{interface: {property: value}}]. *)
Abbreviation properties := (gmap string variant).
Abbreviation interfaces := (gmap string (gmap string variant)).

Definition BLUEZ_SERVICE_NAME : string := "org.bluez".
Definition ADAPTER_IFACE : string := "org.bluez.Adapter1".
Definition GATT_MANAGER_IFACE : string := "org.bluez.GattManager1".
Definition LE_ADVERTISING_MANAGER_IFACE : string := "org.bluez.LEAdvertisingManager1".
Definition GATT_SERVICE_IFACE : string := "org.bluez.GattService1".
Definition GATT_CHRC_IFACE : string := "org.bluez.GattCharacteristic1".
Definition ADVERTISING_IFACE : string := "org.bluez.LEAdvertisement1".

(** ** Exceptions *)

Inductive exn :=
| UnicodeDecodeError
| UnicodeEncodeError
| JSONDecodeError
| AttributeError
| KeyError (key : string)
| CalledProcessError (returncode : Z)
| DBusException (msg : string)
| Exception (msg : string)
| OtherError (name : string).     (* any other subclass of [Exception] *)

(** ** External processes *)

(** A piece of an f-string: literal text or a formatted value. *)
Inductive fragment :=
| Text (s : string)
| Fmt (v : pyvalue).

Inductive command :=
| Argv (args : list string)           (* [subprocess.run([...])] *)
| Shell (cmd : list fragment).        (* [subprocess.run(cmd, shell=True)] *)

Record CompletedProcess := {
  returncode : Z;
  stdout : pystr;
  stderr : pystr
}.

(** What becomes of a call of [subprocess.run]: the process cannot be
    started and the call raises ([FileNotFoundError], [PermissionError],
    ...), or the process is started, runs to its end, and its output is
    either captured as text or cannot be decoded ([UnicodeDecodeError]). *)
Inductive launch :=
| NotStarted (e : exn)
| Started (outcome : exn + CompletedProcess).

(** The text of a command is handed to the system as bytes in the
    file-system encoding (UTF-8 with the surrogateescape handler), which
    fails with [UnicodeEncodeError] on any other surrogate, and it may
    not hold a NUL ([ValueError]).  What formatting puts into an f-string
    is the [str] of the value: a [str] as it is; for every other value a
    text built from [repr], which escapes surrogates and NUL. *)
Fixpoint string_has_nul (s : string) : bool :=
  match s with
  | EmptyString => false
  | String a s' => (N_of_ascii a =? 0) || string_has_nul s'
  end.

Definition fs_char (c : N) : bool :=
  ((c <? 0x110000) && negb (Utf8.is_surrogate c)) || ((0xDC80 <=? c) && (c <=? 0xDCFF)).

Definition fragment_encodable (f : fragment) : bool :=
  match f with
  | Fmt (PyStr s) => forallb fs_char s
  | _ => true
  end.

Definition fragment_has_nul (f : fragment) : bool :=
  match f with
  | Text s => string_has_nul s
  | Fmt (PyStr s) => existsb (N.eqb 0) s
  | Fmt _ => false
  end.

Definition fs_encodable (c : command) : bool :=
  match c with
  | Argv _ => true
  | Shell cmd => forallb fragment_encodable cmd
  end.

Definition has_nul (c : command) : bool :=
  match c with
  | Argv args => existsb string_has_nul args
  | Shell cmd => existsb fragment_has_nul cmd
  end.

(** A scanned network, the dict [{"address": addr, "essid": essid}]. *)
Record network := { address : pystr; essid : pystr }.

#[global] Instance network_eq_dec : EqDecision network.
Proof. solve_decision. Defined.

(** ** Observable events *)

(** The lines the program prints, by the [print] call they come from. *)
Inductive log_line :=
| log_StartNotify
| log_StopNotify
| log_cannot_notify
| log_WriteValue (text : pystr)
| log_not_networks
| log_networks (networks : list network)
| log_some_error (e : exn)
| log_parsed_json (data : pyvalue)
| log_ssid_password (ssid password : pyvalue)
| log_missing
| log_notifying
| log_accepted
| log_failed
| log_config_updated
| log_json_decode_error (e : exn)
| log_exception (e : exn)
| log_raw (value : list byte)
| log_ReadValue
| log_scan_failed (e : exn).

Inductive event :=
| Print (line : log_line)
| Run (c : command)                           (* a process is started *)
| Push (message : pystr)                      (* [send_notification] is called *)
| PropertiesChanged (interface : string) (changed : list (string * variant))
                    (invalidated : list string).   (* the D-Bus signal *)

(** ** The monad of method bodies *)

(** A computation over a mutable state [S]: its result or the exception it
    raised, the state it leaves and the events it emitted, in order. *)
Definition M (S A : Type) : Type := S → (exn + A) * S * list event.

Definition ret {S A} (a : A) : M S A := λ s, (inr a, s, []).

Definition bind {S A B} (m : M S A) (k : A → M S B) : M S B := λ s,
  match m s with
  | (inl e, s1, t1) => (inl e, s1, t1)
  | (inr a, s1, t1) => let '(r, s2, t2) := k a s1 in (r, s2, t1 ++ t2)
  end.

#[global] Instance M_ret {S} : MRet (M S) := λ A, ret.
#[global] Instance M_bind {S} : MBind (M S) := λ A B k m, bind m k.

Definition raise {S A} (e : exn) : M S A := λ s, (inl e, s, []).
Definition get {S} : M S S := λ s, (inr s, s, []).
Definition put {S} (s : S) : M S unit := λ _, (inr (), s, []).
Definition emit {S} (ev : event) : M S unit := λ s, (inr (), s, [ev]).

(** [print] encodes the whole line before it writes any of it.  The
    fixed parts of the lines are encodable, and so is what formatting
    gives for a list, a dict, a number or an exception (their text is
    built from [repr], which escapes what has no encoding).  A [str] is
    formatted as it is. *)
Definition encodable (s : pystr) : bool := bool_decide (is_Some (Utf8.encode s)).

Arguments encodable : simpl never.

Definition str_encodable (v : pyvalue) : bool :=
  match v with
  | PyStr s => encodable s
  | _ => true
  end.

Definition printable (l : log_line) : bool :=
  match l with
  | log_WriteValue text => encodable text
  | log_parsed_json data => str_encodable data
  | log_ssid_password ssid password => str_encodable ssid && str_encodable password
  | _ => true
  end.

Definition print {S} (l : log_line) : M S unit :=
  if printable l then emit (Print l) else raise UnicodeEncodeError.

(** [try: m  except Exception as e: h e], for a handler that covers every
    exception of the model. *)
Definition try_except {S A} (m : M S A) (h : exn → M S A) : M S A := λ s,
  match m s with
  | (inl e, s1, t1) => let '(r, s2, t2) := h e s1 in (r, s2, t1 ++ t2)
  | (inr a, s1, t1) => (inr a, s1, t1)
  end.

(** A computation on a part of the state, run on the whole: [rd] reads the
    part, [wr] writes it back. *)
Definition zoom {S T A} (rd : S → T) (wr : T → S → S) (m : M T A) : M S A := λ s,
  let '(r, t, tr) := m (rd s) in (r, wr t s, tr).

(** The outcome of a run. *)
Definition result {S A} (x : (exn + A) * S * list event) : exn + A := x.1.1.
Definition final {S A} (x : (exn + A) * S * list event) : S := x.1.2.
Definition trace {S A} (x : (exn + A) * S * list event) : list event := x.2.

(** The calls of [send_notification] in a trace, the D-Bus signals, and
    the processes started. *)
Definition pushes (t : list event) : list pystr :=
  omap (λ ev, match ev with Push m => Some m | _ => None end) t.

Definition signals (t : list event) : list (string * list (string * variant) * list string) :=
  omap (λ ev, match ev with PropertiesChanged i c inv => Some (i, c, inv) | _ => None end) t.

Definition runs (t : list event) : list command :=
  omap (λ ev, match ev with Run c => Some c | _ => None end) t.

(** ** class NotifyCharacteristic *)
Module NotifyCharacteristic.

(** [service] is the back-reference to the owning service; the object is
    only ever asked for its path, which is what the model keeps. *)
Record t := Build {
  index : Z;
  uuid : string;
  flags : list string;
  service : string;
  notifying : bool;
  value : list byte;
  path : string
}.

Definition init (index : Z) (uuid : string) (service_path : string) : t :=
  {| index := index; uuid := uuid; flags := ["notify"]; service := service_path;
     notifying := false; value := [];
     path := service_path +:+ "/char_notify" +:+ pretty index |}.

Definition set_notifying (b : bool) (self : t) : t :=
  Build (index self) (uuid self) (flags self) (service self) b (value self) (path self).

Definition set_value (v : list byte) (self : t) : t :=
  Build (index self) (uuid self) (flags self) (service self) (notifying self) v (path self).

Definition get_path (self : t) : string := path self.

Definition get_properties (self : t) : interfaces :=
  {[ GATT_CHRC_IFACE :=
       {[ "UUID" := DString (uuid self);
          "Service" := DObjectPath (service self);
          "Flags" := DArray_s (flags self);
          "Value" := DArray_y (value self) ]} ]}.

Definition StartNotify : M t unit :=
  self ← get;
  put (set_notifying true self);;
  print log_StartNotify.

Definition StopNotify : M t unit :=
  self ← get;
  put (set_notifying false self);;
  print log_StopNotify.

(** [message.encode()] *)
Definition str_encode (message : pystr) : M t (list byte) :=
  match Utf8.encode message with
  | Some bs => mret bs
  | None => raise UnicodeEncodeError
  end.

Definition send_notification (message : pystr) : M t unit :=
  emit (Push message);;
  self ← get;
  if negb (notifying self) then
    print log_cannot_notify
  else
    bs ← str_encode message;
    put (set_value bs self);;
    emit (PropertiesChanged GATT_CHRC_IFACE [("Value", DArray_y bs)] []).

End NotifyCharacteristic.

(** ** class MyCharacteristic *)
Module MyCharacteristic.

Record t := Build {
  index : Z;
  uuid : string;
  flags : list string;
  service : string;
  value : list byte;
  path : string
}.

Definition init (index : Z) (uuid : string) (flags : list string)
    (service_path : string) : t :=
  {| index := index; uuid := uuid; flags := flags; service := service_path;
     value := ["000"%byte];
     path := service_path +:+ "/char" +:+ pretty index |}.

Definition set_value (v : list byte) (self : t) : t :=
  Build (index self) (uuid self) (flags self) (service self) v (path self).

Definition get_path (self : t) : string := path self.

Definition get_properties (self : t) : interfaces :=
  {[ GATT_CHRC_IFACE :=
       {[ "UUID" := DString (uuid self);
          "Service" := DObjectPath (service self);
          "Flags" := DArray_s (flags self) ]} ]}.

Definition ReadValue (options : properties) : M t (list byte) :=
  print log_ReadValue;;
  self ← get;
  mret (value self).

(** [d[key]] *)
Definition subscript {S V} (d : gmap string V) (key : string) : M S V :=
  match d !! key with
  | Some v => mret v
  | None => raise (KeyError key)
  end.

Definition Get (interface prop : string) : M t variant :=
  self ← get;
  props ← subscript (get_properties self) interface;
  subscript props prop.

Definition GetAll (interface : string) : M t properties :=
  self ← get;
  if bool_decide (interface ≠ GATT_CHRC_IFACE) then
    raise (DBusException "Invalid interface")
  else
    subscript (get_properties self) interface.

End MyCharacteristic.

(** The two kinds of object a service keeps in [characteristics]. *)
Inductive characteristic :=
| Chrc (c : MyCharacteristic.t)
| NotifyChrc (n : NotifyCharacteristic.t).

(** [ch.get_path()] and [ch.get_properties()], dispatched on the class. *)
Definition characteristic_get_path (ch : characteristic) : string :=
  match ch with
  | Chrc c => MyCharacteristic.get_path c
  | NotifyChrc n => NotifyCharacteristic.get_path n
  end.

Definition characteristic_get_properties (ch : characteristic) : interfaces :=
  match ch with
  | Chrc c => MyCharacteristic.get_properties c
  | NotifyChrc n => NotifyCharacteristic.get_properties n
  end.

(** ** class Application (its constant) and class MyService *)

Definition PATH_BASE : string := "/org/bluez/example".

Module MyService.

(** The service owns its characteristics; [characteristics] is the one
    place their state lives.  The attribute [notify_char] is a second
    reference to one of them: the model keeps its position in the list. *)
Record t := Build {
  index : Z;
  path : string;
  uuid : string;
  primary : bool;
  characteristics : list characteristic;
  notify_char : nat
}.

Definition set_characteristics (l : list characteristic) (self : t) : t :=
  Build (index self) (path self) (uuid self) (primary self) l (notify_char self).

Definition add_characteristic (ch : characteristic) (self : t) : t :=
  set_characteristics (characteristics self ++ [ch]) self.

(** The constructor adds the read/write characteristic, then the notify
    characteristic, which [notify_char] refers to: the second element. *)
Definition init (index : Z) : t :=
  let path := PATH_BASE +:+ "/service" +:+ pretty index in
  let self :=
    {| index := index; path := path;
       uuid := "12345678-1234-5678-1234-56789abcdef1";
       primary := true; characteristics := []; notify_char := 1 |} in
  let self := add_characteristic
    (Chrc (MyCharacteristic.init 0 "12345678-1234-5678-1234-56789abcdef0"
             ["read"; "write-without-response"] path)) self in
  add_characteristic
    (NotifyChrc (NotifyCharacteristic.init 1 "12345678-1234-5678-1234-56789abcdef2"
                   path)) self.

Definition get_path (self : t) : string := path self.

Definition get_properties (self : t) : interfaces :=
  {[ GATT_SERVICE_IFACE :=
       {[ "UUID" := DString (uuid self);
          "Primary" := DBoolean (primary self);
          "Characteristics" :=
            DArray_o (characteristic_get_path <$> characteristics self) ]} ]}.

End MyService.

(** Method calls through references.  The state of every characteristic
    lives in the list [characteristics] of its service; a method called on
    one of them runs on that element and leaves its new state there.  A
    reference that does not lead to an object of the class fails as an
    attribute lookup does. *)

(** A method of [MyCharacteristic] called on the object at position [self]. *)
Definition call_chrc {A} (self : nat) (m : M MyCharacteristic.t A) : M MyService.t A :=
  service ← get;
  match MyService.characteristics service !! self with
  | Some (Chrc c) =>
    zoom (λ _, c)
         (λ c' s, MyService.set_characteristics
                    (<[self := Chrc c']> (MyService.characteristics s)) s)
         m
  | _ => raise AttributeError
  end.

(** A method of [NotifyCharacteristic] called on [service.notify_char]. *)
Definition call_notify_char {A} (m : M NotifyCharacteristic.t A) : M MyService.t A :=
  service ← get;
  match MyService.characteristics service !! MyService.notify_char service with
  | Some (NotifyChrc n) =>
    zoom (λ _, n)
         (λ n' s, MyService.set_characteristics
                    (<[MyService.notify_char s := NotifyChrc n']>
                       (MyService.characteristics s)) s)
         m
  | _ => raise AttributeError
  end.

Module Application.

Record t := Build {
  path : string;
  services : list MyService.t
}.

Definition add_service (svc : MyService.t) (self : t) : t :=
  Build (path self) (services self ++ [svc]).

Definition init : t :=
  add_service (MyService.init 0) {| path := PATH_BASE; services := [] |}.

Definition get_path (self : t) : string := path self.

Definition GetManagedObjects : M t (gmap string interfaces) :=
  self ← get;
  mret (foldl (λ mapped service,
                 foldl (λ mapped ch,
                          <[characteristic_get_path ch :=
                              characteristic_get_properties ch]> mapped)
                       (<[MyService.get_path service :=
                            MyService.get_properties service]> mapped)
                       (MyService.characteristics service))
              ∅ (services self)).

End Application.

(** ** module json *)
Module Json.

(** *** [json.dumps], on the list of networks it is given *)

Definition hex_digit (n : N) : N := if n <? 10 then 48 + n else 87 + n.

(** [\uXXXX] *)
Definition u_escape (n : N) : pystr :=
  lit "\u" ++ [hex_digit (n / 4096); hex_digit ((n / 256) mod 16);
               hex_digit ((n / 16) mod 16); hex_digit (n mod 16)].

(** One character of a string, with [ensure_ascii]. *)
Definition escape_char (c : N) : pystr :=
  if c =? 34 then [92; 34]
  else if c =? 92 then [92; 92]
  else if c =? 10 then lit "\n"
  else if c =? 13 then lit "\r"
  else if c =? 9 then lit "\t"
  else if c =? 8 then lit "\b"
  else if c =? 12 then lit "\f"
  else if (32 <=? c) && (c <=? 126) then [c]
  else if c <? 0x10000 then u_escape c
  else u_escape (0xD800 + (c - 0x10000) / 1024)
       ++ u_escape (0xDC00 + (c - 0x10000) mod 1024).

Definition encode_string (s : pystr) : pystr :=
  [dquote] ++ (s ≫= escape_char) ++ [dquote].

Definition dumps_network (n : network) : pystr :=
  lit "{" ++ encode_string (lit "address") ++ lit ": " ++ encode_string (address n)
  ++ lit ", " ++ encode_string (lit "essid") ++ lit ": " ++ encode_string (essid n)
  ++ lit "}".

Fixpoint join (sep : pystr) (l : list pystr) : pystr :=
  match l with
  | [] => []
  | [x] => x
  | x :: l' => x ++ sep ++ join sep l'
  end.

Definition dumps (networks : list network) : pystr :=
  lit "[" ++ join (lit ", ") (dumps_network <$> networks) ++ lit "]".

(** *** A reference decoder

    The dispatch code is verified for any decoder (see [json_loads]
    below).  This one follows the library's scanner on JSON texts and is
    used to run the model on concrete writes.  A failure is [None]. *)

Definition is_ws (c : N) : bool := (c =? 32) || (c =? 9) || (c =? 10) || (c =? 13).

Fixpoint skip_ws (s : pystr) : pystr :=
  match s with
  | c :: s' => if is_ws c then skip_ws s' else s
  | [] => []
  end.

Definition hex_val (c : N) : option N :=
  if (48 <=? c) && (c <=? 57) then Some (c - 48)
  else if (97 <=? c) && (c <=? 102) then Some (c - 87)
  else if (65 <=? c) && (c <=? 70) then Some (c - 55)
  else None.

Definition hex4 (s : pystr) : option N :=
  match s with
  | a :: b :: c :: d :: _ =>
    a ← hex_val a; b ← hex_val b; c ← hex_val c; d ← hex_val d;
    Some (((a * 16 + b) * 16 + c) * 16 + d)
  | _ => None
  end.

(** What follows a backslash: the character it stands for and how many
    characters of [s] the escape takes. *)
Definition escape (s : pystr) : option (N * nat) :=
  match s with
  | [] => None
  | e :: r =>
    if e =? 34 then Some (34, 1%nat)
    else if e =? 92 then Some (92, 1%nat)
    else if e =? 47 then Some (47, 1%nat)
    else if e =? 98 then Some (8, 1%nat)
    else if e =? 102 then Some (12, 1%nat)
    else if e =? 110 then Some (10, 1%nat)
    else if e =? 114 then Some (13, 1%nat)
    else if e =? 116 then Some (9, 1%nat)
    else if e =? 117 then
      c ← hex4 r;
      if (0xD800 <=? c) && (c <=? 0xDBFF) then
        match drop 4 r with
        | 92 :: 117 :: r2 =>
          c2 ← hex4 r2;
          if (0xDC00 <=? c2) && (c2 <=? 0xDFFF)
          then Some (0x10000 + (c - 0xD800) * 1024 + (c2 - 0xDC00), 11%nat)
          else Some (c, 5%nat)
        | _ => Some (c, 5%nat)
        end
      else Some (c, 5%nat)
    else None
  end.

(** The body of a string after its opening quote, and what follows the
    closing quote.  [skip] counts the characters of an escape still to
    be passed. *)
Fixpoint scanstring (skip : nat) (s : pystr) : option (pystr * pystr) :=
  match s with
  | [] => None
  | c :: s' =>
    match skip with
    | S k => scanstring k s'
    | O =>
      if c =? dquote then Some ([], s')
      else if c =? 92 then
        '(x, n) ← escape s';
        '(body, rest) ← scanstring n s';
        Some (x :: body, rest)
      else if c <? 32 then None
      else '(body, rest) ← scanstring 0 s'; Some (c :: body, rest)
    end
  end.

Definition is_digit (c : N) : bool := (48 <=? c) && (c <=? 57).

Fixpoint digits (s : pystr) : pystr :=
  match s with
  | c :: s' => if is_digit c then c :: digits s' else []
  | [] => []
  end.

Definition digits_value (ds : pystr) : Z :=
  foldl (λ a d, a * 10 + Z.of_N (d - 48))%Z 0%Z ds.

(** [float(literal)] for the literal [m * 10^e], [0 <= m]: the nearest
    binary64 number, ties to even. *)
Definition float_of_decimal (neg : bool) (m e : Z) : spec_float :=
  if (m =? 0)%Z then S754_zero neg
  else if (0 <=? e)%Z then
    binary_normalize 53 1024 (if neg then - (m * 10 ^ e) else m * 10 ^ e) 0 neg
  else
    let d := (10 ^ (- e))%Z in
    let k := Z.max 0 (Z.log2 d + 64 - Z.log2 m) in
    let '(q, r) := Z.div_eucl (m * 2 ^ k) d in
    binary_round_aux 53 1024 neg q (- k)
      (if (r =? 0)%Z then loc_Exact else loc_Inexact (2 * r ?= d)%Z).

(** A number at the start of [s] and the number of characters it takes. *)
Definition match_number (s : pystr) : option (pyvalue * nat) :=
  let '(neg, s1) := match s with 45 :: r => (true, r) | _ => (false, s) end in
  let ip := match s1 with
            | 48 :: _ => [48]
            | _ => digits s1
            end in
  if bool_decide (ip = []) then None
  else
    let s2 := drop (length ip) s1 in
    let fp := match s2 with
              | 46 :: r => digits r
              | _ => []
              end in
    let s3 := if bool_decide (fp = []) then s2 else drop (S (length fp)) s2 in
    let '(ex, taken) :=
      match s3 with
      | e :: r =>
        if (e =? 101) || (e =? 69) then
          let '(eneg, r1, sign) := match r with
                                   | 45 :: r1 => (true, r1, 1%nat)
                                   | 43 :: r1 => (false, r1, 1%nat)
                                   | _ => (false, r, 0%nat)
                                   end in
          let ed := digits r1 in
          if bool_decide (ed = []) then (None, 0%nat)
          else (Some (if eneg then - digits_value ed else digits_value ed)%Z,
                (1 + sign + length ed)%nat)
        else (None, 0%nat)
      | [] => (None, 0%nat)
      end in
    let n := ((if neg then 1 else 0) + length ip
              + (if bool_decide (fp = []) then 0 else S (length fp)) + taken)%nat in
    if bool_decide (fp = []) && bool_decide (ex = None) then
      Some (PyInt (if neg then - digits_value ip else digits_value ip), n)
    else
      Some (PyFloat (float_of_decimal neg (digits_value (ip ++ fp))
                       (default 0 ex - Z.of_nat (length fp))%Z), n).

(** [d[key] = v] on the items of a dict. *)
Fixpoint dict_set (d : list (pystr * pyvalue)) (key : pystr) (v : pyvalue)
    : list (pystr * pyvalue) :=
  match d with
  | [] => [(key, v)]
  | (k, w) :: d' => if bool_decide (k = key) then (k, v) :: d' else (k, w) :: dict_set d' key v
  end.

Section Containers.
Variable scan : pystr → option (pyvalue * pystr).

(** The items of an array from the start of an item to the closing
    bracket. *)
Fixpoint array_items (fuel : nat) (s : pystr) : option (list pyvalue * pystr) :=
  match fuel with
  | O => None
  | S fuel =>
    '(v, r) ← scan s;
    match skip_ws r with
    | 93 :: r' => Some ([v], r')
    | 44 :: r' => '(vs, r'') ← array_items fuel (skip_ws r'); Some (v :: vs, r'')
    | _ => None
    end
  end.

(** The members of an object from the start of a key to the closing
    brace, added to [d]. *)
Fixpoint object_members (fuel : nat) (d : list (pystr * pyvalue)) (s : pystr)
    : option (list (pystr * pyvalue) * pystr) :=
  match fuel with
  | O => None
  | S fuel =>
    match s with
    | 34 :: r =>
      '(key, r) ← scanstring 0 r;
      match skip_ws r with
      | 58 :: r =>
        '(v, r) ← scan (skip_ws r);
        let d := dict_set d key v in
        match skip_ws r with
        | 125 :: r' => Some (d, r')
        | 44 :: r' => object_members fuel d (skip_ws r')
        | _ => None
        end
      | _ => None
      end
    | _ => None
    end
  end.
End Containers.

Fixpoint scan_once (fuel : nat) (s : pystr) : option (pyvalue * pystr) :=
  match fuel with
  | O => None
  | S fuel =>
    match s with
    | [] => None
    | c :: r =>
      if c =? 34 then '(body, r') ← scanstring 0 r; Some (PyStr body, r')
      else if c =? 123 then
        match skip_ws r with
        | 125 :: r' => Some (PyDict [], r')
        | r1 => '(d, r') ← object_members (scan_once fuel) fuel [] r1; Some (PyDict d, r')
        end
      else if c =? 91 then
        match skip_ws r with
        | 93 :: r' => Some (PyList [], r')
        | r1 => '(l, r') ← array_items (scan_once fuel) fuel r1; Some (PyList l, r')
        end
      else
        match Re.literal (lit "null") s, Re.literal (lit "true") s,
              Re.literal (lit "false") s, Re.literal (lit "NaN") s,
              Re.literal (lit "Infinity") s, Re.literal (lit "-Infinity") s with
        | Some r', _, _, _, _, _ => Some (PyNone, r')
        | _, Some r', _, _, _, _ => Some (PyBool true, r')
        | _, _, Some r', _, _, _ => Some (PyBool false, r')
        | _, _, _, Some r', _, _ => Some (PyFloat S754_nan, r')
        | _, _, _, _, Some r', _ => Some (PyFloat (S754_infinity false), r')
        | _, _, _, _, _, Some r' => Some (PyFloat (S754_infinity true), r')
        | _, _, _, _, _, _ => '(v, n) ← match_number s; Some (v, drop n s)
        end
    end
  end.

(** [json.loads(s)] *)
Definition loads (s : pystr) : exn + pyvalue :=
  match s with
  | 0xFEFF :: _ => inl JSONDecodeError
  | _ =>
    match scan_once (S (length s)) (skip_ws s) with
    | Some (v, r) => if bool_decide (skip_ws r = []) then inr v else inl JSONDecodeError
    | None => inl JSONDecodeError
    end
  end.

End Json.

(** ** Wi-Fi scanner and command dispatch *)

(** How the body of the [try] block of [WriteValue] ends when it does not
    raise: by a [return], or by running to its end. *)
Inductive flow := Returned | Completed.

Section Server.

(** [json.loads] is the library's decoder: any function from a text to a
    value or an exception. *)
Variable json_loads : pystr → exn + pyvalue.

(** The environment: what becomes of the process a command asks for. *)
Variable process : command → launch.

(** [subprocess.run(c, capture_output=True, text=True, check=check)] *)
Definition subprocess_run {S} (c : command) (check : bool) : M S CompletedProcess :=
  if negb (fs_encodable c) then raise UnicodeEncodeError
  else if has_nul c then raise (OtherError "ValueError")
  else
    match process c with
    | NotStarted e => raise e
    | Started outcome =>
      emit (Run c);;
      match outcome with
      | inl e => raise e
      | inr result =>
        if check && negb (returncode result =? 0)%Z
        then raise (CalledProcessError (returncode result))
        else mret result
      end
    end.

(** The body of the [for] loop of [scan_networks], on the state
    [(seen_essids, unique_networks)]. *)
Definition scan_step (acc : gset pystr * list network) (item : pystr * pystr)
    : gset pystr * list network :=
  let '(seen_essids, unique_networks) := acc in
  let '(addr, essid) := item in
  if bool_decide (essid ∉ seen_essids) && bool_decide (essid ≠ []) then
    ({[essid]} ∪ seen_essids, unique_networks ++ [{| address := addr; essid := essid |}])
  else (seen_essids, unique_networks).

(** What [scan_networks] makes of the output of the scan. *)
Definition parse_scan (output : pystr) : list network :=
  let addresses := Re.findall Re.cell_re output in
  let essids := Re.findall Re.essid_re output in
  (foldl scan_step (∅, []) (zip addresses essids)).2.

Definition scan_networks {S} : M S (list network) :=
  try_except
    (result ← subprocess_run (Argv ["sudo"; "iwlist"; "wlan0"; "scan"]) true;
     let output := stdout result in
     mret (parse_scan output))
    (λ e, match e with
          | CalledProcessError _ => print (log_scan_failed e);; mret []
          | _ => raise e
          end).

(** [self.service.notify_char.send_notification(message)] *)
Definition notify_char_send_notification (message : pystr) : M MyService.t unit :=
  call_notify_char (NotifyCharacteristic.send_notification message).

(** [data.get(key)] *)
Definition data_get {S} (data : pyvalue) (key : pystr) : M S pyvalue :=
  match data with
  | PyDict d => mret (dict_get d key)
  | _ => raise AttributeError
  end.

(** [bytes(value).decode('utf-8')] *)
Definition bytes_decode {S} (value : list byte) : M S pystr :=
  match Utf8.decode value with
  | Some text => mret text
  | None => raise UnicodeDecodeError
  end.

(** [self.value = value] *)
Definition store_value (self : nat) (value : list byte) : M MyService.t unit :=
  call_chrc self (c ← get; put (MyCharacteristic.set_value value c)).

Definition connected_marker : pystr := 0x2705 :: lit " Connected to Wi-Fi".
Definition failed_marker : pystr := 0x274C :: lit " Failed to connect".

(** The status line pushed before connecting. *)
Definition scan_status (result : CompletedProcess) : pystr :=
  if (returncode result =? 0)%Z then
    let output := strip (stdout result) in
    if bool_decide (output = []) then lit "No ESSIDs found" else output
  else lit "Error: " ++ strip (stderr result).

Definition iwlist_grep : command :=
  Shell [Text "sudo iwlist scan | grep 'ESSID'"].

Definition nmcli_connect (ssid password : pyvalue) : command :=
  Shell [Text "sudo nmcli device wifi connect '"; Fmt ssid;
         Text "' password '"; Fmt password; Text "'"].

(** The [try] block of [WriteValue]. *)
Definition dispatch (value : list byte) : M MyService.t flow :=
  text ← bytes_decode value;
  print (log_WriteValue text);;
  if bool_decide (text = lit "SCAN_WIFI") then
    try_except
      (networks ← scan_networks;
       if bool_decide (networks = []) then
         print log_not_networks;;
         raise (Exception "Failed to scan networks")
       else
         print (log_networks networks);;
         let json_str := Json.dumps networks in
         notify_char_send_notification json_str)
      (λ e, print (log_some_error e));;
    mret Returned
  else
    data ← (match json_loads text with inl e => raise e | inr v => mret v end);
    print (log_parsed_json data);;
    ssid ← data_get data (lit "ssid");
    password ← data_get data (lit "password");
    print (log_ssid_password ssid password);;
    if negb (truthy ssid) || negb (truthy password) then
      print log_missing;;
      mret Returned
    else
      result ← subprocess_run iwlist_grep false;
      let output := scan_status result in
      print log_notifying;;
      notify_char_send_notification output;;
      result ← subprocess_run (nmcli_connect ssid password) false;
      (if (returncode result =? 0)%Z then
         print log_accepted;;
         notify_char_send_notification connected_marker
       else
         print log_failed;;
         notify_char_send_notification failed_marker;;
         print log_config_updated);;
      mret Completed.

(** [MyCharacteristic.WriteValue], called on the characteristic at
    position [self] of the service. *)
Definition WriteValue (self : nat) (value : list byte) (options : properties)
    : M MyService.t unit :=
  fl ← try_except (dispatch value)
         (λ e, match e with
               | JSONDecodeError => print (log_json_decode_error e)
               | _ => print (log_exception e);; print (log_raw value)
               end;;
               mret Completed);
  match fl with
  | Returned => mret ()
  | Completed => store_value self value
  end.

(** [MyCharacteristic.ReadValue], likewise. *)
Definition ReadValue (self : nat) (options : properties) : M MyService.t (list byte) :=
  call_chrc self (MyCharacteristic.ReadValue options).

End Server.

(** ** Drivers used to state the properties *)

(** A subscription request of the host. *)
Inductive notify_call := Start | Stop.

Definition do_call (c : notify_call) : M NotifyCharacteristic.t unit :=
  match c with
  | Start => NotifyCharacteristic.StartNotify
  | Stop => NotifyCharacteristic.StopNotify
  end.

(** A sequence of requests, served in order. *)
Fixpoint do_calls (cs : list notify_call) : M NotifyCharacteristic.t unit :=
  match cs with
  | [] => mret ()
  | c :: cs' => do_call c;; do_calls cs'
  end.

Definition subscribed_by (c : notify_call) : bool :=
  match c with Start => true | Stop => false end.

(** The one property map of the characteristic. *)
Definition chrc_properties (self : MyCharacteristic.t) : properties :=
  {[ "UUID" := DString (MyCharacteristic.uuid self);
     "Service" := DObjectPath (MyCharacteristic.service self);
     "Flags" := DArray_s (MyCharacteristic.flags self) ]}.

(** Two blocks of scan output: one without a network name, one with. *)
Definition hidden_block : pystr :=
  lit "Cell 01 - Address: 00:11:22:33:44:55" ++ [newline]
  ++ lit "          Channel:6" ++ [newline].

Definition named_block : pystr :=
  lit "Cell 02 - Address: 66:77:88:99:AA:BB" ++ [newline]
  ++ qlit "          ESSID:'Cafe'" ++ [newline].

(** The loop of [scan_networks] as a recursive function of the names seen
    so far: the records it appends for the pairs still to come. *)
Fixpoint kept (seen : gset pystr) (pairs : list (pystr * pystr)) : list network :=
  match pairs with
  | [] => []
  | (addr, name) :: rest =>
    if bool_decide (name ∉ seen) && bool_decide (name ≠ [])
    then {| address := addr; essid := name |} :: kept ({[name]} ∪ seen) rest
    else kept seen rest
  end.

Definition record_of (p : pystr * pystr) : network :=
  {| address := p.1; essid := p.2 |}.


(** The objects of an application below its root, with their property
    maps, in the order [GetManagedObjects] visits them. *)
Definition service_entries (svc : MyService.t) : list (string * interfaces) :=
  (MyService.get_path svc, MyService.get_properties svc)
  :: ((λ ch, (characteristic_get_path ch, characteristic_get_properties ch))
        <$> MyService.characteristics svc).

Definition entries (app : Application.t) : list (string * interfaces) :=
  Application.services app ≫= service_entries.

Definition object_paths (app : Application.t) : list string := (entries app).*1.

(** What the constructors establish.  A characteristic gets its path from
    its service and its index and refers back to that service; a service
    gets its path from [PATH_BASE] and its index; and D-Bus registers at
    most one object under a path. *)
Definition chrc_registered (svc : MyService.t) (ch : characteristic) : Prop :=
  match ch with
  | Chrc c =>
    MyCharacteristic.path c
      = MyService.path svc +:+ "/char" +:+ pretty (MyCharacteristic.index c)
    ∧ MyCharacteristic.service c = MyService.path svc
  | NotifyChrc n =>
    NotifyCharacteristic.path n
      = MyService.path svc +:+ "/char_notify" +:+ pretty (NotifyCharacteristic.index n)
    ∧ NotifyCharacteristic.service n = MyService.path svc
  end.

Definition service_registered (svc : MyService.t) : Prop :=
  MyService.path svc = PATH_BASE +:+ "/service" +:+ pretty (MyService.index svc)
  ∧ Forall (chrc_registered svc) (MyService.characteristics svc).

Definition registered (app : Application.t) : Prop :=
  Application.path app = PATH_BASE
  ∧ Forall service_registered (Application.services app)
  ∧ NoDup (object_paths app).

(** [mapped[key] = value] *)
Definition ins (m : gmap string interfaces) (kv : string * interfaces)
    : gmap string interfaces :=
  <[kv.1 := kv.2]> m.

(** The object at position [self] of the service is the read/write
    characteristic [c]; the object [notify_char] refers to is the notify
    characteristic [n]. *)
Definition chrc_at (self : nat) (c : MyCharacteristic.t) (s : MyService.t) : Prop :=
  MyService.characteristics s !! self = Some (Chrc c).

Definition notify_at (n : NotifyCharacteristic.t) (s : MyService.t) : Prop :=
  MyService.characteristics s !! MyService.notify_char s = Some (NotifyChrc n).

(** The service with a new state of its notify characteristic. *)
Definition with_notify (n : NotifyCharacteristic.t) (s : MyService.t) : MyService.t :=
  MyService.set_characteristics
    (<[MyService.notify_char s := NotifyChrc n]> (MyService.characteristics s)) s.

(** The service with a new state of the characteristic at [self]. *)
Definition with_chrc (self : nat) (c : MyCharacteristic.t) (s : MyService.t) : MyService.t :=
  MyService.set_characteristics
    (<[self := Chrc c]> (MyService.characteristics s)) s.

(** A computation keeps a property of the state, however it ends. *)
Definition preserves {S A} (P : S → Prop) (m : M S A) : Prop :=
  ∀ s, P s → P (final (m s)).

(** Text that came from decoding bytes: Unicode scalar values only. *)
Definition scalar (c : N) : bool := (c <? 0x110000) && negb (Utf8.is_surrogate c).

Definition is_text (s : pystr) : Prop := forallb scalar s = true.

(** The captured output of every process is such text. *)
Definition text_output (process : command → launch) : Prop :=
  ∀ c cp, process c = Started (inr cp) → is_text (stdout cp) ∧ is_text (stderr cp).

(** The handler of [WriteValue]'s [try] decides how the method goes on:
    whether the body of the [try] ended by [return]. *)
Definition returned {S} (x : (exn + flow) * S * list event) : bool :=
  match result x with
  | inr Returned => true
  | _ => false
  end.

(** The bytes a client writes to send the text [s]. *)
Definition bytes_of (s : pystr) : list byte := default [] (Utf8.encode s).

(** Two environments to run the model in: the tools succeed and print a
    network name, or fail with a message. *)
Definition tools_ok : command → launch :=
  λ _, Started (inr {| returncode := 0; stdout := qlit "          ESSID:'Home'";
                       stderr := [] |}).


(** The service of the program, and the same once a client has subscribed. *)
Definition service0 : MyService.t := MyService.init 0.

Definition service0_subscribed : MyService.t :=
  final (call_notify_char NotifyCharacteristic.StartNotify service0).

(** Its two characteristics as the constructor leaves them. *)
Definition chrc0 : MyCharacteristic.t :=
  MyCharacteristic.init 0 "12345678-1234-5678-1234-56789abcdef0"
    ["read"; "write-without-response"] "/org/bluez/example/service0".

Definition notify0 : NotifyCharacteristic.t :=
  NotifyCharacteristic.init 1 "12345678-1234-5678-1234-56789abcdef2"
    "/org/bluez/example/service0".

(** ** The states of the running application *)

(** Two states of one characteristic: the same object (class, path, owner,
    index) with possibly different contents. *)
Definition same_chrc (ch ch' : characteristic) : Prop :=
  match ch, ch' with
  | Chrc c, Chrc c' =>
    MyCharacteristic.path c' = MyCharacteristic.path c
    ∧ MyCharacteristic.service c' = MyCharacteristic.service c
    ∧ MyCharacteristic.index c' = MyCharacteristic.index c
  | NotifyChrc n, NotifyChrc n' =>
    NotifyCharacteristic.path n' = NotifyCharacteristic.path n
    ∧ NotifyCharacteristic.service n' = NotifyCharacteristic.service n
    ∧ NotifyCharacteristic.index n' = NotifyCharacteristic.index n
  | _, _ => False
  end.

(** Two states of one service. *)
Definition same_service (svc svc' : MyService.t) : Prop :=
  MyService.path svc' = MyService.path svc
  ∧ MyService.index svc' = MyService.index svc
  ∧ Forall2 same_chrc (MyService.characteristics svc) (MyService.characteristics svc').

(** The calls of the host that can change the state of a service, each
    write in the environment in which it is served. *)
Inductive host_call :=
| CallWriteValue (process : command → launch) (self : nat)
                 (value : list byte) (options : properties)
| CallStartNotify
| CallStopNotify.

Definition serve (json_loads : pystr → exn + pyvalue) (call : host_call)
    : M MyService.t unit :=
  match call with
  | CallWriteValue process self value options =>
    WriteValue json_loads process self value options
  | CallStartNotify => call_notify_char NotifyCharacteristic.StartNotify
  | CallStopNotify => call_notify_char NotifyCharacteristic.StopNotify
  end.

(** The application after a call on its [k]-th service. *)
Definition after_call (json_loads : pystr → exn + pyvalue) (k : nat) (call : host_call)
    (app : Application.t) : Application.t :=
  Application.Build (Application.path app)
    (alter (λ svc, final (serve json_loads call svc)) k (Application.services app)).

(** The states the application goes through. *)
Inductive reachable (json_loads : pystr → exn + pyvalue) : Application.t → Prop :=
| reachable_init : reachable json_loads Application.init
| reachable_call app k call :
    reachable json_loads app → reachable json_loads (after_call json_loads k call app).

(** Scan outputs for the two cases the specification singles out: the same
    name under two addresses, and a block whose name is empty. *)
Definition twice_named_output : pystr :=
  lit "Cell 01 - Address: 00:11:22:33:44:55" ++ [newline]
  ++ qlit "          ESSID:'Cafe'" ++ [newline]
  ++ lit "Cell 02 - Address: 66:77:88:99:AA:BB" ++ [newline]
  ++ qlit "          ESSID:'Cafe'" ++ [newline].

Definition unnamed_output : pystr :=
  lit "Cell 01 - Address: 00:11:22:33:44:55" ++ [newline]
  ++ qlit "          ESSID:''" ++ [newline].

(** The application after a client has subscribed and written credentials
    that the connect tool accepts. *)
Definition app_connected : Application.t :=
  after_call Json.loads 0
    (CallWriteValue tools_ok 0 (bytes_of (qlit "{'ssid':'Home','password':'secret'}")) ∅)
    (after_call Json.loads 0 CallStartNotify Application.init).

(** The application after the write of [hello], which is stored. *)
Definition app_written : Application.t :=
  after_call Json.loads 0 (CallWriteValue tools_ok 0 (bytes_of (lit "hello")) ∅)
    Application.init.

(** The last-written values of the read/write characteristics of an
    application, in order. *)
Definition last_written (app : Application.t) : list (list byte) :=
  Application.services app ≫= λ svc,
    omap (λ ch, match ch with
                | Chrc c => Some (MyCharacteristic.value c)
                | NotifyChrc _ => None
                end) (MyService.characteristics svc).

(** ** class Advertisement *)
Module Advertisement.

Definition PATH_BASE : string := "/org/bluez/example/advertisement".

Record t := Build {
  index : Z;
  path : string;
  service_uuids : list string;
  local_name : string;
  includes : list string
}.

Definition init (index : Z) : t :=
  {| index := index; path := PATH_BASE +:+ pretty index;
     service_uuids := ["12345678-1234-5678-1234-56789abcdef1"];
     local_name := "RaspiBLE";
     includes := ["tx-power"] |}.

Definition get_path (self : t) : string := path self.

Definition GetAll (interface : string) : M t properties :=
  self ← get;
  if bool_decide (interface ≠ ADVERTISING_IFACE) then
    raise (DBusException "Invalid interface")
  else
    mret {[ "Type" := DString "peripheral";
            "ServiceUUIDs" := DArray_s (service_uuids self);
            "LocalName" := DString (local_name self);
            "Includes" := DArray_s (includes self) ]}.

End Advertisement.

(** ** Start-up: [find_adapter] and [main] *)

(** [find_adapter], on the objects BlueZ reports, in the order the reply
    lists them: the path of the first one that has the adapter interface. *)
Fixpoint find_adapter {V} (objs : list (string * gmap string V)) : option string :=
  match objs with
  | [] => None
  | (path, ifs) :: rest =>
    if bool_decide (is_Some (ifs !! ADAPTER_IFACE)) then Some path else find_adapter rest
  end.

(** What [main] does, step by step.  The construction of the objects is
    [Application.init] and [Advertisement.init]; the two registrations are
    calls on the managers of the adapter. *)
Inductive startup_step :=
| SayNoAdapter
| Sleep (seconds : nat)
| SayRegisteringApplication
| RegisterApplication (adapter : string) (path : string)
| SayRegisteringAdvertisement
| RegisterAdvertisement (adapter : string) (path : string)
| RunMainLoop.

(** [not adapter]: no path, or an empty one. *)
Definition no_adapter (adapter : option string) : bool :=
  match adapter with
  | None => true
  | Some p => bool_decide (p = "")
  end.

Definition main {V} (objs : list (string * gmap string V)) : list startup_step :=
  let adapter := find_adapter objs in
  if no_adapter adapter then [SayNoAdapter]
  else
    let app := Application.init in
    let adv := Advertisement.init 0 in
    [Sleep 1;
     SayRegisteringApplication;
     RegisterApplication (default "" adapter) (Application.get_path app);
     SayRegisteringAdvertisement;
     RegisterAdvertisement (default "" adapter) (Advertisement.get_path adv);
     RunMainLoop].

(** The registrations among the steps. *)
Definition registrations (steps : list startup_step) : list startup_step :=
  List.filter (λ step, match step with
                       | RegisterApplication _ _ | RegisterAdvertisement _ _ => true
                       | _ => false
                       end) steps.

(** ** Further drivers and predicates *)

(** Text of ASCII characters only. *)
Definition ascii (s : pystr) : Prop := forallb (λ c, c <? 128) s = true.

(** The scan command of [scan_networks]. *)
Definition iwlist_scan : command := Argv ["sudo"; "iwlist"; "wlan0"; "scan"].





(** A series of calls of the host, each served on the state the one
    before left, whether or not it ended in an error: the state after the
    last one and the events of all of them. *)
Fixpoint run_calls (json_loads : pystr → exn + pyvalue) (calls : list host_call)
    (s : MyService.t) : MyService.t * list event :=
  match calls with
  | [] => (s, [])
  | call :: rest =>
    let x := serve json_loads call s in
    let '(s', t) := run_calls json_loads rest (final x) in
    (s', trace x ++ t)
  end.


(** The subscription after a series of calls: the last subscription call
    decides, writes do not count. *)
Definition subscription_after (calls : list host_call) (b : bool) : bool :=
  foldl (λ b call, match call with
                   | CallStartNotify => true
                   | CallStopNotify => false
                   | CallWriteValue _ _ _ _ => b
                   end) b calls.

(** What the service says of its notify characteristic: whether a client
    is subscribed, and the value it holds.  [None] when [notify_char] does
    not lead to a notify characteristic. *)
Definition subscribed (s : MyService.t) : option bool :=
  match MyService.characteristics s !! MyService.notify_char s with
  | Some (NotifyChrc n) => Some (NotifyCharacteristic.notifying n)
  | _ => None
  end.

Definition notify_value (s : MyService.t) : option (list byte) :=
  match MyService.characteristics s !! MyService.notify_char s with
  | Some (NotifyChrc n) => Some (NotifyCharacteristic.value n)
  | _ => None
  end.

(** The value a host that started from [v] knows after the events [t]:
    the one carried by the last [PropertiesChanged] signal, if any. *)
Definition value_after (v : option (list byte)) (t : list event) : option (list byte) :=
  foldl (λ v ev, match ev with
                 | PropertiesChanged _ [(_, DArray_y bs)] _ => Some bs
                 | _ => v
                 end) v t.


(** A computation emits at most [k] events of a kind, counted by [count]. *)
Definition within {S A} (count : list event → nat) (k : nat) (m : M S A) : Prop :=
  ∀ s, (count (trace (m s)) ≤ k)%nat.

(** A computation whose every run is in the relation [R]: between the
    state before, the events and the state after. *)
Definition follows {S A} (R : S → list event → S → Prop) (m : M S A) : Prop :=
  ∀ s, R s (trace (m s)) (final (m s)).

(** The value the notify characteristic holds follows the signals. *)
Definition tracks (s : MyService.t) (t : list event) (s' : MyService.t) : Prop :=
  notify_value s' = value_after (notify_value s) t.

(** The subscription is left alone, and there is no signal unless a
    client is subscribed. *)
Definition quiet (s : MyService.t) (t : list event) (s' : MyService.t) : Prop :=
  subscribed s' = subscribed s ∧ (subscribed s ≠ Some true → signals t = []).

(** Two states of one object that differ at most in what the methods
    assign: the value, and for a notify characteristic the subscription. *)
Definition same_object (ch ch' : characteristic) : Prop :=
  match ch, ch' with
  | Chrc c, Chrc c' => c' = MyCharacteristic.set_value (MyCharacteristic.value c') c
  | NotifyChrc n, NotifyChrc n' =>
    n' = NotifyCharacteristic.set_notifying (NotifyCharacteristic.notifying n')
           (NotifyCharacteristic.set_value (NotifyCharacteristic.value n') n)
  | _, _ => False
  end.

(** Two states of one service that differ at most in that. *)
Definition evolved (s s' : MyService.t) : Prop :=
  s' = MyService.set_characteristics (MyService.characteristics s') s
  ∧ Forall2 same_object (MyService.characteristics s) (MyService.characteristics s').

(** The application of the program with the last-written value [v], the
    subscription [b] and the value [nv] of the notify characteristic. *)
Definition app_state (v : list byte) (b : bool) (nv : list byte) : Application.t :=
  Application.Build PATH_BASE
    [MyService.set_characteristics
       [Chrc (MyCharacteristic.set_value v chrc0);
        NotifyChrc (NotifyCharacteristic.set_notifying b
                      (NotifyCharacteristic.set_value nv notify0))]
       service0].

(** The object tree the program exposes while the notify characteristic
    holds [nv]. *)
Definition managed (nv : list byte) : gmap string interfaces :=
  {[ "/org/bluez/example/service0" :=
       {[ GATT_SERVICE_IFACE :=
            {[ "UUID" := DString "12345678-1234-5678-1234-56789abcdef1";
               "Primary" := DBoolean true;
               "Characteristics" :=
                 DArray_o ["/org/bluez/example/service0/char0";
                           "/org/bluez/example/service0/char_notify1"] ]} ]};
     "/org/bluez/example/service0/char0" :=
       {[ GATT_CHRC_IFACE :=
            {[ "UUID" := DString "12345678-1234-5678-1234-56789abcdef0";
               "Service" := DObjectPath "/org/bluez/example/service0";
               "Flags" := DArray_s ["read"; "write-without-response"] ]} ]};
     "/org/bluez/example/service0/char_notify1" :=
       {[ GATT_CHRC_IFACE :=
            {[ "UUID" := DString "12345678-1234-5678-1234-56789abcdef2";
               "Service" := DObjectPath "/org/bluez/example/service0";
               "Flags" := DArray_s ["notify"];
               "Value" := DArray_y nv ]} ]} ]}.

(** Environments and inputs to run the model on: a scan tool that finds
    one named network, the bytes of the scan command and of a text that
    is no command, and the objects of a host with two adapters. *)
Definition tools_scanning : command → launch :=
  λ _, Started (inr {| returncode := 0; stdout := named_block; stderr := [] |}).

(** An environment in which no tool is installed. *)
Definition tools_missing : command → launch :=
  λ _, NotStarted (OtherError "FileNotFoundError").




Definition scan_command : list byte := bytes_of (lit "SCAN_WIFI").


Definition cafe : network :=
  {| address := lit "66:77:88:99:AA:BB"; essid := lit "Cafe" |}.

Definition bluez_objects : list (string * gmap string (gmap string variant)) :=
  [("/org/bluez", {[ "org.bluez.AgentManager1" := ∅ ]});
   ("/org/bluez/hci0", {[ ADAPTER_IFACE := ∅; GATT_MANAGER_IFACE := ∅ ]});
   ("/org/bluez/hci1", {[ ADAPTER_IFACE := ∅ ]})].

(** One block of scan output, as the tool prints it for the cell [num]
    with the address [addr] and the network name [name]. *)
Definition scan_block (num addr name : pystr) : pystr :=
  lit "Cell " ++ num ++ lit " - Address: " ++ addr ++ [newline]
  ++ lit "          ESSID:" ++ [dquote] ++ name ++ [dquote] ++ [newline].

Definition well_formed_block (num addr name : pystr) : Prop :=
  num ≠ [] ∧ forallb Unicode.isdecimal num = true
  ∧ length addr = 17%nat ∧ forallb Re.address_char addr = true
  ∧ (dquote ∉ name) ∧ (newline ∉ name).

(** * Properties *)

(** ** Runs of a computation *)
Section Runs.
Context {S A B : Type}.

Lemma run_bind_inr (m : M S A) (k : A → M S B) s a s1 t1 :
  m s = (inr a, s1, t1) →
  (m ≫= k) s = let '(r, s2, t2) := k a s1 in (r, s2, t1 ++ t2).
Proof. intros H. unfold mbind, M_bind, bind. by rewrite H. Qed.

End Runs.

(** ** UTF-8 *)

Ltac divlia := zify; Z.to_euclidean_division_equations; lia.

Lemma byte_of_to_N b : byte_of_N (Byte.to_N b) = b.
Proof.
  unfold byte_of_N. pose proof (Byte.to_N_bounded b).
  rewrite N.mod_small by lia. by rewrite Byte.of_to_N.
Qed.

Lemma cont_spec b c : Utf8.cont b = Some c → c < 64 ∧ Byte.to_N b = 0x80 + c.
Proof.
  unfold Utf8.cont. case_match eqn:H; [|done]. intros [= <-].
  apply andb_true_iff in H as [H1%N.leb_le H2%N.leb_le]. lia.
Qed.

Lemma accept_spec lo c c' :
  Utf8.accept lo c = Some c' →
  c' = c ∧ lo ≤ c ∧ Utf8.is_surrogate c = false ∧ c ≤ 0x10FFFF.
Proof.
  unfold Utf8.accept. case_match eqn:H; [|done]. intros [= <-].
  apply andb_true_iff in H as [[H1%N.leb_le H2%negb_true_iff]%andb_true_iff H3%N.leb_le].
  done.
Qed.

Lemma encode_char_1 n : n < 0x80 → Utf8.encode_char n = Some [byte_of_N n].
Proof. intros H%N.ltb_lt. unfold Utf8.encode_char. by rewrite H. Qed.

Lemma encode_char_2 n c1 :
  0xC0 ≤ n → n < 0xE0 → c1 < 64 → 0x80 ≤ (n - 0xC0) * 64 + c1 →
  Utf8.encode_char ((n - 0xC0) * 64 + c1) = Some [byte_of_N n; byte_of_N (0x80 + c1)].
Proof.
  intros Hn Hn' Hc1 Hlo. unfold Utf8.encode_char.
  rewrite (proj2 (N.ltb_ge _ _)) by lia. rewrite (proj2 (N.ltb_lt _ 0x800)) by lia.
  repeat f_equal; divlia.
Qed.

Lemma encode_char_3 n c1 c2 :
  0xE0 ≤ n → n < 0xF0 → c1 < 64 → c2 < 64 →
  0x800 ≤ ((n - 0xE0) * 64 + c1) * 64 + c2 →
  Utf8.is_surrogate (((n - 0xE0) * 64 + c1) * 64 + c2) = false →
  Utf8.encode_char (((n - 0xE0) * 64 + c1) * 64 + c2)
  = Some [byte_of_N n; byte_of_N (0x80 + c1); byte_of_N (0x80 + c2)].
Proof.
  intros Hn Hn' Hc1 Hc2 Hlo Hs. unfold Utf8.encode_char. rewrite Hs.
  rewrite (proj2 (N.ltb_ge _ 0x80)) by lia. rewrite (proj2 (N.ltb_ge _ 0x800)) by lia.
  rewrite (proj2 (N.ltb_lt _ 0x10000)) by lia.
  repeat f_equal; divlia.
Qed.

Lemma encode_char_4 n c1 c2 c3 :
  0xF0 ≤ n → n < 0xF8 → c1 < 64 → c2 < 64 → c3 < 64 →
  0x10000 ≤ (((n - 0xF0) * 64 + c1) * 64 + c2) * 64 + c3 →
  (((n - 0xF0) * 64 + c1) * 64 + c2) * 64 + c3 ≤ 0x10FFFF →
  Utf8.encode_char ((((n - 0xF0) * 64 + c1) * 64 + c2) * 64 + c3)
  = Some [byte_of_N n; byte_of_N (0x80 + c1); byte_of_N (0x80 + c2); byte_of_N (0x80 + c3)].
Proof.
  intros Hn Hn' Hc1 Hc2 Hc3 Hlo Hhi. unfold Utf8.encode_char.
  rewrite (proj2 (N.ltb_ge _ 0x80)) by lia. rewrite (proj2 (N.ltb_ge _ 0x800)) by lia.
  rewrite (proj2 (N.ltb_ge _ 0x10000)) by lia. rewrite (proj2 (N.ltb_lt _ 0x110000)) by lia.
  repeat f_equal; divlia.
Qed.

(** What [decode] accepts, [encode] gives back: the bytes of a write that
    decodes are the encoding of its text. *)
Lemma decode_encode bs s : Utf8.decode bs = Some s → Utf8.encode s = Some bs.
Proof.
  remember (S (length bs)) as k eqn:Hk.
  assert (length bs < k)%nat as Hlen by lia. clear Hk.
  revert bs s Hlen. induction k as [|k IH0]; intros bs s Hlen; [lia|].
  assert (∀ r : list byte, (length r < length bs)%nat →
            ∀ s, Utf8.decode r = Some s → Utf8.encode s = Some r) as IH.
  { intros r Hr s' Hs'. apply (IH0 r s'); [lia|done]. }
  clear IH0 Hlen. destruct bs as [|b0 r]; simpl; [by intros [= <-]|].
  pose proof (byte_of_to_N b0) as Hb0.
  destruct (Byte.to_N b0 <? 0x80) eqn:H1.
  { apply N.ltb_lt in H1. destruct (Utf8.decode r) as [s'|] eqn:Hr; [|done].
    intros [= <-]. simpl. rewrite (encode_char_1 _ H1). simpl.
    rewrite (IH r ltac:(simpl; lia) s' Hr). simpl. by rewrite Hb0. }
  destruct ((0xC0 <=? Byte.to_N b0) && (Byte.to_N b0 <? 0xE0)) eqn:H2.
  { apply andb_true_iff in H2 as [H2%N.leb_le H2'%N.ltb_lt].
    destruct r as [|b1 r]; [done|]. simpl.
    destruct (Utf8.cont b1) as [c1|] eqn:Hc1; [|done]. simpl.
    destruct (Utf8.accept _ _) as [c|] eqn:Hc; [|done]. simpl.
    destruct (Utf8.decode r) as [s'|] eqn:Hr; [|done]. intros [= <-].
    apply cont_spec in Hc1 as [Hc1 Hb1]. apply accept_spec in Hc as (-> & Hlo & Hsur & Hhi).
    simpl. rewrite (IH r ltac:(simpl; lia) s' Hr). simpl.
    rewrite encode_char_2 by done. simpl. by rewrite <- Hb1, Hb0, byte_of_to_N. }
  destruct ((0xE0 <=? Byte.to_N b0) && (Byte.to_N b0 <? 0xF0)) eqn:H3.
  { apply andb_true_iff in H3 as [H3%N.leb_le H3'%N.ltb_lt].
    destruct r as [|b1 [|b2 r]]; [done..|]. simpl.
    destruct (Utf8.cont b1) as [c1|] eqn:Hc1; [|done]. simpl.
    destruct (Utf8.cont b2) as [c2|] eqn:Hc2; [|done]. simpl.
    destruct (Utf8.accept _ _) as [c|] eqn:Hc; [|done]. simpl.
    destruct (Utf8.decode r) as [s'|] eqn:Hr; [|done]. intros [= <-].
    apply cont_spec in Hc1 as [Hc1 Hb1]. apply cont_spec in Hc2 as [Hc2 Hb2].
    apply accept_spec in Hc as (-> & Hlo & Hsur & Hhi).
    simpl. rewrite (IH r ltac:(simpl; lia) s' Hr). simpl.
    rewrite encode_char_3 by done. simpl. by rewrite <- Hb1, <- Hb2, Hb0, !byte_of_to_N. }
  destruct ((0xF0 <=? Byte.to_N b0) && (Byte.to_N b0 <? 0xF8)) eqn:H4; [|done].
  apply andb_true_iff in H4 as [H4%N.leb_le H4'%N.ltb_lt].
  destruct r as [|b1 [|b2 [|b3 r]]]; [done..|]. simpl.
  destruct (Utf8.cont b1) as [c1|] eqn:Hc1; [|done]. simpl.
  destruct (Utf8.cont b2) as [c2|] eqn:Hc2; [|done]. simpl.
  destruct (Utf8.cont b3) as [c3|] eqn:Hc3; [|done]. simpl.
  destruct (Utf8.accept _ _) as [c|] eqn:Hc; [|done]. simpl.
  destruct (Utf8.decode r) as [s'|] eqn:Hr; [|done]. intros [= <-].
  apply cont_spec in Hc1 as [Hc1 Hb1]. apply cont_spec in Hc2 as [Hc2 Hb2].
  apply cont_spec in Hc3 as [Hc3 Hb3].
  apply accept_spec in Hc as (-> & Hlo & Hsur & Hhi).
  simpl. rewrite (IH r ltac:(simpl; lia) s' Hr). simpl.
  rewrite encode_char_4 by done. simpl.
  by rewrite <- Hb1, <- Hb2, <- Hb3, Hb0, !byte_of_to_N.
Qed.

Lemma encode_char_is_scalar c bs : Utf8.encode_char c = Some bs → scalar c = true.
Proof.
  unfold Utf8.encode_char, scalar.
  destruct (c <? 0x80) eqn:H1; [intros _|].
  { apply N.ltb_lt in H1. apply andb_true_iff. split; [apply N.ltb_lt; lia|].
    unfold Utf8.is_surrogate. rewrite (proj2 (N.leb_gt _ _)) by lia. done. }
  destruct (c <? 0x800) eqn:H2; [intros _|].
  { apply N.ltb_lt in H2. apply andb_true_iff. split; [apply N.ltb_lt; lia|].
    unfold Utf8.is_surrogate. rewrite (proj2 (N.leb_gt _ _)) by lia. done. }
  destruct (c <? 0x10000) eqn:H3.
  { destruct (Utf8.is_surrogate c); [done|]. intros _. apply N.ltb_lt in H3.
    apply andb_true_iff. split; [apply N.ltb_lt; lia|done]. }
  destruct (c <? 0x110000) eqn:H4; [intros _|done].
  apply N.ltb_ge in H3. rewrite andb_true_l. unfold Utf8.is_surrogate.
  rewrite andb_comm, (proj2 (N.leb_gt _ _)) by lia. done.
Qed.

Lemma encode_is_text s bs : Utf8.encode s = Some bs → is_text s.
Proof.
  unfold is_text. revert bs. induction s as [|c s IH]; intros bs; [done|]. simpl.
  destruct (Utf8.encode_char c) as [b|] eqn:Hc; [|done]. simpl.
  destruct (Utf8.encode s) as [r|] eqn:Hs; [|done]. intros _.
  by rewrite (encode_char_is_scalar _ _ Hc), (IH r).
Qed.

(** Text decoded from bytes is text. *)
Lemma decode_is_text bs s : Utf8.decode bs = Some s → is_text s.
Proof. intros H%decode_encode. by eapply encode_is_text. Qed.

(** ** The subscription state machine *)
Section Subscription.
Import NotifyCharacteristic.

Lemma do_call_run c st :
  do_call c st =
    (inr (), set_notifying (subscribed_by c) st,
     [Print (if subscribed_by c then log_StartNotify else log_StopNotify)]).
Proof. by destruct c. Qed.

Lemma do_calls_cons c cs st :
  result (do_calls (c :: cs) st)
    = result (do_calls cs (set_notifying (subscribed_by c) st))
  ∧ final (do_calls (c :: cs) st)
    = final (do_calls cs (set_notifying (subscribed_by c) st)).
Proof.
  cbn [do_calls]. rewrite (run_bind_inr _ _ _ _ _ _ (do_call_run c st)).
  by destruct (do_calls cs _) as [[r s] t].
Qed.

Lemma do_calls_result cs st : result (do_calls cs st) = inr ().
Proof.
  revert st. induction cs as [|c cs IH]; intros st; [done|].
  destruct (do_calls_cons c cs st) as [-> _]. apply IH.
Qed.

Lemma do_calls_app cs c st :
  final (do_calls (cs ++ [c]) st) = final (do_call c (final (do_calls cs st))).
Proof.
  revert st. induction cs as [|c' cs IH]; intros st.
  - simpl. by rewrite (run_bind_inr _ _ _ _ _ _ (do_call_run c st)), do_call_run.
  - rewrite <- app_comm_cons.
    destruct (do_calls_cons c' (cs ++ [c]) st) as [_ ->].
    destruct (do_calls_cons c' cs st) as [_ ->]. apply IH.
Qed.

(** Requests change [notifying] and nothing else. *)
Lemma do_calls_frame cs st :
  ∃ b, final (do_calls cs st) = set_notifying b st.
Proof.
  revert st. induction cs as [|c cs IH]; intros st.
  - exists (notifying st). by destruct st.
  - destruct (IH (set_notifying (subscribed_by c) st)) as [b Hb].
    exists b. destruct (do_calls_cons c cs st) as [_ ->]. by rewrite Hb.
Qed.

(** C9. StartNotify and StopNotify are idempotent: after any finite
    sequence of StartNotify/StopNotify calls, from any state, the
    subscription state is the one the last call alone produces -
    subscribed after StartNotify, unsubscribed after StopNotify - and no
    call fails; in particular a call repeated has the effect of the call
    made once. *)
Theorem C9_last_call_decides (st : NotifyCharacteristic.t) (cs : list notify_call)
    (c : notify_call) :
  result (do_calls (cs ++ [c]) st) = inr ()
  ∧ final (do_calls (cs ++ [c]) st) = final (do_call c st)
  ∧ notifying (final (do_calls (cs ++ [c]) st)) = subscribed_by c
  ∧ final (do_calls [c; c] st) = final (do_call c st).
Proof.
  assert (Hlast : final (do_calls (cs ++ [c]) st) = final (do_call c st)).
  { rewrite do_calls_app. destruct (do_calls_frame cs st) as [b ->].
    rewrite !do_call_run. done. }
  split; [apply do_calls_result|]. split; [done|]. split.
  - rewrite Hlast, do_call_run. done.
  - by destruct c.
Qed.

End Subscription.

(** ** Pushing a notification *)
Section Push.
Import NotifyCharacteristic.

Lemma send_notification_subscribed st message bs :
  notifying st = true → Utf8.encode message = Some bs →
  send_notification message st =
    (inr (), set_value bs st,
     [Push message; PropertiesChanged GATT_CHRC_IFACE [("Value", DArray_y bs)] []]).
Proof.
  intros Hn He. unfold send_notification, str_encode, mbind, M_bind, bind, emit, get. simpl.
  rewrite Hn. simpl. rewrite He. done.
Qed.

Lemma send_notification_unsubscribed st message :
  notifying st = false →
  send_notification message st = (inr (), st, [Push message; Print log_cannot_notify]).
Proof.
  intros Hn. unfold send_notification, mbind, M_bind, bind, emit, get. simpl.
  rewrite Hn. done.
Qed.

Lemma send_notification_unencodable st message :
  notifying st = true → Utf8.encode message = None →
  send_notification message st = (inl UnicodeEncodeError, st, [Push message]).
Proof.
  intros Hn He. unfold send_notification, str_encode, mbind, M_bind, bind, emit, get. simpl.
  rewrite Hn. simpl. rewrite He. done.
Qed.

(** Every byte sequence that is UTF-8 text can be pushed, as the text it
    decodes to, and it is what a subscribed push stores. *)
Lemma send_notification_bytes st bs message :
  notifying st = true → Utf8.decode bs = Some message →
  value (final (send_notification message st)) = bs.
Proof.
  intros Hn Hd%decode_encode. by rewrite (send_notification_subscribed _ _ _ Hn Hd).
Qed.

(** C3. For every state of the notify characteristic and every pushed
    message: when subscribed, the push replaces the current value with
    exactly the bytes of the message (its UTF-8 encoding [bs]) and emits
    exactly one PropertiesChanged signal, for the property Value alone
    with an empty invalidated list, whatever the previous value was; when
    unsubscribed, the push leaves the state as it is, emits no signal,
    prints the warning and returns normally.  Hence a push that changes
    the current value was made while subscribed. *)
Theorem C3_push (st : NotifyCharacteristic.t) (message : pystr) :
  (notifying st = true → ∀ bs, Utf8.encode message = Some bs →
     result (send_notification message st) = inr ()
     ∧ value (final (send_notification message st)) = bs
     ∧ final (send_notification message st) = set_value bs st
     ∧ signals (trace (send_notification message st))
       = [(GATT_CHRC_IFACE, [("Value", DArray_y bs)], [])])
  ∧ (notifying st = false →
       send_notification message st
       = (inr (), st, [Push message; Print log_cannot_notify])
       ∧ signals (trace (send_notification message st)) = [])
  ∧ (value (final (send_notification message st)) ≠ value st → notifying st = true).
Proof.
  split; [|split].
  - intros Hn bs He. rewrite (send_notification_subscribed _ _ _ Hn He). done.
  - intros Hn. rewrite (send_notification_unsubscribed _ _ Hn). done.
  - intros Hv. destruct (notifying st) eqn:Hn; [done|].
    rewrite (send_notification_unsubscribed _ _ Hn) in Hv. done.
Qed.

Lemma C3_push_witness :
  let on := set_notifying true notify0 in
  value (final (send_notification (lit "hi") on)) = ["h"%byte; "i"%byte]
  ∧ signals (trace (send_notification (lit "hi") on))
    = [(GATT_CHRC_IFACE, [("Value", DArray_y ["h"%byte; "i"%byte])], [])]
  ∧ final (send_notification (lit "hi") notify0) = notify0.
Proof.
  intros on.
  destruct (C3_push on (lit "hi")) as (Hon & _ & _).
  destruct (C3_push notify0 (lit "hi")) as (_ & Hoff & _).
  destruct (Hon eq_refl _ eq_refl) as (_ & Hv & _ & Hsig).
  destruct (Hoff eq_refl) as (Hu & _).
  split; [exact Hv|]. split; [exact Hsig|]. rewrite Hu. reflexivity.
Defined.

End Push.

(** ** The property accessors of the read/write characteristic *)
Section Accessors.
Import MyCharacteristic.

Lemma get_properties_lookup self interface :
  get_properties self !! interface
  = if bool_decide (interface = GATT_CHRC_IFACE) then Some (chrc_properties self) else None.
Proof.
  unfold get_properties. case_bool_decide as H.
  - subst. apply lookup_singleton_eq.
  - apply lookup_singleton_ne. congruence.
Qed.

(** C8. For every interface string other than the characteristic's
    interface, org.bluez.GattCharacteristic1, Get and GetAll both fail,
    on the interface: Get because the lookup of the interface among the
    characteristic's interfaces fails (a KeyError naming the interface,
    whatever the property asked for), GetAll with the fault "Invalid
    interface".  For the matching interface GetAll returns the full
    property map and Get the value found under the property name in
    that map (the lookup failing on a name the map does not have).
    Neither changes the characteristic or emits anything. *)
Theorem C8_property_accessors (self : MyCharacteristic.t) (interface prop : string) :
  (interface ≠ GATT_CHRC_IFACE →
     Get interface prop self = (inl (KeyError interface), self, [])
     ∧ GetAll interface self = (inl (DBusException "Invalid interface"), self, []))
  ∧ (interface = GATT_CHRC_IFACE →
       GetAll interface self = (inr (chrc_properties self), self, [])
       ∧ Get interface prop self
         = (match chrc_properties self !! prop with
            | Some v => inr v
            | None => inl (KeyError prop)
            end, self, [])).
Proof.
  split; intros Hi.
  - unfold Get, GetAll, subscript, mbind, M_bind, bind, get. simpl.
    rewrite get_properties_lookup. rewrite !bool_decide_eq_false_2 by done.
    rewrite (bool_decide_eq_true_2 _ Hi). done.
  - subst interface.
    unfold Get, GetAll, subscript, mbind, M_bind, bind, get. simpl.
    rewrite get_properties_lookup.
    rewrite (bool_decide_eq_true_2 (GATT_CHRC_IFACE = GATT_CHRC_IFACE)) by done.
    simpl. by destruct (chrc_properties self !! prop).
Qed.

Lemma C8_property_accessors_witness :
  let self := MyCharacteristic.init 0 "12345678-1234-5678-1234-56789abcdef0"
                ["read"; "write-without-response"] "/org/bluez/example/service0" in
  result (Get "org.bluez.GattService1" "UUID" self) = inl (KeyError "org.bluez.GattService1")
  ∧ result (GetAll "org.bluez.GattService1" self) = inl (DBusException "Invalid interface")
  ∧ result (Get GATT_CHRC_IFACE "UUID" self)
    = inr (DString "12345678-1234-5678-1234-56789abcdef0").
Proof.
  intros self.
  destruct (C8_property_accessors self "org.bluez.GattService1" "UUID") as [Hne _].
  destruct (C8_property_accessors self GATT_CHRC_IFACE "UUID") as [_ Heq].
  destruct (Hne ltac:(discriminate)) as [H1 H2].
  destruct (Heq eq_refl) as [_ H3].
  rewrite H1, H2, H3. repeat split.
Defined.

(** C5, as the claim states it, fails on the characteristic the service
    creates: its flags include read, and its property map has no Value
    entry. *)
Lemma C5_readable_without_Value :
  let self := MyCharacteristic.init 0 "12345678-1234-5678-1234-56789abcdef0"
                ["read"; "write-without-response"] "/org/bluez/example/service0" in
  "read" ∈ flags self
  ∧ ∃ props, get_properties self !! GATT_CHRC_IFACE = Some props
             ∧ props !! "Value" = None.
Proof.
  intros self. split; [set_solver|].
  exists (chrc_properties self). split; [|done].
  rewrite get_properties_lookup. done.
Qed.

(** C5, amended. The property map of the read/write characteristic has
    exactly the entries UUID, Service (the owner's path) and Flags, under
    the characteristic interface alone; it has no Value entry, whether or
    not the flags include read. *)
Theorem C5_properties_never_hold_Value (self : MyCharacteristic.t) :
  get_properties self = {[ GATT_CHRC_IFACE := chrc_properties self ]}
  ∧ dom (chrc_properties self) = ({[ "UUID"; "Service"; "Flags" ]} : gset string)
  ∧ chrc_properties self !! "UUID" = Some (DString (uuid self))
  ∧ chrc_properties self !! "Service" = Some (DObjectPath (service self))
  ∧ chrc_properties self !! "Flags" = Some (DArray_s (flags self))
  ∧ chrc_properties self !! "Value" = None.
Proof.
  split; [done|]. split; [|done].
  unfold chrc_properties. rewrite !dom_insert_L, dom_singleton_L. set_solver.
Qed.

End Accessors.

(** ** The scan parser *)

Section Parser.

Lemma foldl_scan_step seen acc pairs :
  (foldl scan_step (seen, acc) pairs).2 = acc ++ kept seen pairs.
Proof.
  revert seen acc. induction pairs as [|[addr name] rest IH]; intros seen acc; simpl.
  - by rewrite app_nil_r.
  - destruct (bool_decide (name ∉ seen) && bool_decide (name ≠ [])).
    + rewrite IH, <- app_assoc. done.
    + apply IH.
Qed.

Lemma parse_scan_kept output :
  parse_scan output
  = kept ∅ (zip (Re.findall Re.cell_re output) (Re.findall Re.essid_re output)).
Proof. unfold parse_scan. by rewrite foldl_scan_step. Qed.

Lemma kept_sublist seen pairs : sublist (kept seen pairs) (record_of <$> pairs).
Proof.
  revert seen. induction pairs as [|[addr name] rest IH]; intros seen; simpl; [done|].
  destruct (_ && _); [apply sublist_skip | apply sublist_cons]; apply IH.
Qed.

Lemma kept_fresh seen pairs n :
  n ∈ kept seen pairs → (essid n ∉ seen) ∧ (essid n ≠ []).
Proof.
  revert seen. induction pairs as [|[addr name] rest IH]; intros seen; simpl.
  - intros Hn. by apply elem_of_nil in Hn.
  - destruct (bool_decide (name ∉ seen)) eqn:Hs; simpl; [|by apply IH].
    destruct (bool_decide (name ≠ [])) eqn:He; simpl; [|by apply IH].
    apply bool_decide_eq_true in Hs, He.
    intros [->|Hin]%elem_of_cons; [done|].
    destruct (IH _ Hin) as [Hn ?]. split; [|done].
    intros Hseen. apply Hn, elem_of_union. by right.
Qed.

Lemma kept_NoDup seen pairs : NoDup (essid <$> kept seen pairs).
Proof.
  revert seen. induction pairs as [|[addr name] rest IH]; intros seen; simpl.
  - constructor.
  - destruct (_ && _); [|apply IH].
    rewrite fmap_cons. constructor; [|apply IH].
    intros (n & Hn & Hin)%list_elem_of_fmap.
    destruct (kept_fresh _ _ _ Hin) as [Hf _]. simpl in Hn. set_solver.
Qed.

Lemma kept_first seen pairs n :
  n ∈ kept seen pairs →
  ∃ i, pairs !! i = Some (address n, essid n)
       ∧ ∀ j p, (j < i)%nat → pairs !! j = Some p → p.2 ≠ essid n.
Proof.
  revert seen. induction pairs as [|[addr name] rest IH]; intros seen; simpl.
  - intros Hn. by apply elem_of_nil in Hn.
  - intros Hin. destruct (decide (name = essid n)) as [Heq|Hne].
    + destruct (bool_decide (name ∉ seen) && bool_decide (name ≠ [])) eqn:Hk.
      * apply elem_of_cons in Hin as [->|Hin].
        { exists 0%nat. split; [done|]. intros j p Hj. lia. }
        destruct (kept_fresh _ _ _ Hin) as [Hf _]. destruct Hf.
        apply elem_of_union. left. by apply elem_of_singleton.
      * destruct (kept_fresh _ _ _ Hin) as [Hf Hne].
        apply andb_false_iff in Hk as [Hk|Hk]; apply bool_decide_eq_false in Hk.
        -- apply dec_stable in Hk. congruence.
        -- apply dec_stable in Hk. congruence.
    + assert (n ∈ kept seen rest ∨ n ∈ kept ({[name]} ∪ seen) rest) as Hin'.
      { destruct (_ && _); [|by left].
        apply elem_of_cons in Hin as [->|Hin]; [done|by right]. }
      assert (∃ i, rest !! i = Some (address n, essid n)
         ∧ ∀ j p, (j < i)%nat → rest !! j = Some p → p.2 ≠ essid n) as (i & Hi & Hlt).
      { destruct Hin' as [Hin'|Hin']; by eapply IH. }
      exists (S i). split; [done|]. intros [|j] p Hj Hp.
      * simpl in Hp. by simplify_eq.
      * simpl in Hp. eapply Hlt; [|done]. lia.
Qed.

Lemma kept_covers seen pairs addr name :
  (addr, name) ∈ pairs → name ≠ [] → name ∉ seen →
  name ∈ essid <$> kept seen pairs.
Proof.
  revert seen. induction pairs as [|[a e] rest IH]; intros seen Hin Hne Hs; simpl.
  - by apply elem_of_nil in Hin.
  - destruct (decide (e = name)) as [->|Hd].
    + rewrite !bool_decide_eq_true_2 by done. simpl. by left.
    + apply elem_of_cons in Hin as [[=]|Hin]; [congruence|].
      destruct (_ && _); [|by apply IH].
      rewrite fmap_cons. apply elem_of_cons. right. apply IH; [done..|].
      intros [He%elem_of_singleton|Hseen]%elem_of_union; [congruence|done].
Qed.

Lemma literal_app p s r : Re.literal p s = Some r → s = p ++ r.
Proof.
  revert s. induction p as [|a p IH]; intros [|b s] H; simpl in *; try congruence.
  destruct (N.eqb_spec a b); [|done]. subst. f_equal. by apply IH.
Qed.

Lemma upto_quote_spec s g :
  Re.upto_quote s = Some g →
  (∃ r, s = g ++ dquote :: r) ∧ (dquote ∉ g) ∧ (newline ∉ g).
Proof.
  revert g. induction s as [|c s IH]; intros g H; simpl in *; [done|].
  destruct (N.eqb_spec c dquote) as [->|Hq].
  { injection H as <-. split; [by eexists|]. split; apply not_elem_of_nil. }
  destruct (N.eqb_spec c newline) as [->|Hn]; [done|].
  destruct (Re.upto_quote s) as [g'|] eqn:Hg; [|done]. injection H as <-.
  destruct (IH _ eq_refl) as ([r ->] & H1 & H2).
  split; [by eexists|]. split; rewrite elem_of_cons; by intros [?|?].
Qed.

Lemma cell_re_spec s g n :
  Re.cell_re s = Some (g, n) →
  length g = 17%nat ∧ forallb Re.address_char g = true
  ∧ ∃ ds r, s = lit "Cell " ++ ds ++ lit " - Address: " ++ g ++ r.
Proof.
  unfold Re.cell_re. intros H.
  apply bind_Some in H as (r1 & H1 & H).
  case_bool_decide; [done|].
  apply bind_Some in H as (r2 & H2 & H).
  destruct (bool_decide _ && _) eqn:Hc; [|done].
  injection H as <- <-. apply andb_true_iff in Hc as [Hl Hc].
  apply bool_decide_eq_true in Hl. split; [done|]. split; [done|].
  apply literal_app in H1, H2.
  exists (take (length (Re.digits r1)) r1), (drop 17 r2).
  rewrite take_drop, <- H2, take_drop. done.
Qed.

Lemma essid_re_spec s g n :
  Re.essid_re s = Some (g, n) →
  (dquote ∉ g) ∧ (newline ∉ g) ∧ ∃ r, s = lit "ESSID:" ++ [dquote] ++ g ++ [dquote] ++ r.
Proof.
  unfold Re.essid_re. intros H.
  apply bind_Some in H as (r1 & H1 & H).
  apply bind_Some in H as (g' & H2 & H).
  injection H as <- <-. apply literal_app in H1.
  apply upto_quote_spec in H2 as ([r ->] & ? & ?).
  split; [done|]. split; [done|]. exists r. by rewrite H1, <- !(assoc_L (++)).
Qed.

(** What holds of every match holds of every group [findall] returns,
    when it is kept by a longer text. *)
Lemma findall_from_Forall (Q : pystr → pystr → Prop) p :
  (∀ s g n, p s = Some (g, n) → Q s g) →
  (∀ c s g, Q s g → Q (c :: s) g) →
  ∀ s skip, Forall (Q s) (Re.findall_from p skip s).
Proof.
  intros Hp Hc. induction s as [|c s IH]; intros skip; simpl; [constructor|].
  assert (∀ k, Forall (Q (c :: s)) (Re.findall_from p k s)) as Ht.
  { intros k. eapply Forall_impl; [apply IH|]. intros g. apply Hc. }
  destruct skip; [|apply Ht].
  destruct (p (c :: s)) as [[g n]|] eqn:Hm; [|apply Ht].
  constructor; [by eapply Hp|apply Ht].
Qed.

Lemma parse_scan_elem output n :
  n ∈ parse_scan output →
  address n ∈ Re.findall Re.cell_re output ∧ essid n ∈ Re.findall Re.essid_re output.
Proof.
  rewrite parse_scan_kept. intros Hn.
  pose proof (kept_sublist ∅ (zip (Re.findall Re.cell_re output)
                                   (Re.findall Re.essid_re output))) as Hs.
  apply (λ H, elem_of_sublist _ _ _ H Hs) in Hn.
  apply list_elem_of_fmap in Hn as ([a e] & -> & Hp). simpl.
  split; [by eapply elem_of_zip_l|by eapply elem_of_zip_r].
Qed.

Lemma findall_cell output g :
  g ∈ Re.findall Re.cell_re output →
  length g = 17%nat ∧ forallb Re.address_char g = true
  ∧ ∃ pre post, output = pre ++ lit " - Address: " ++ g ++ post.
Proof.
  revert g. apply Forall_forall.
  apply (findall_from_Forall
    (λ s g, length g = 17%nat ∧ forallb Re.address_char g = true
            ∧ ∃ pre post, s = pre ++ lit " - Address: " ++ g ++ post)).
  - intros s g n (? & ? & ds & r & ->)%cell_re_spec. split; [done|]. split; [done|].
    exists (lit "Cell " ++ ds), r. by rewrite <- !(assoc_L (++)).
  - intros c s g (? & ? & pre & post & ->). split; [done|]. split; [done|].
    by exists (c :: pre), post.
Qed.

Lemma findall_essid output g :
  g ∈ Re.findall Re.essid_re output →
  (dquote ∉ g) ∧ (newline ∉ g)
  ∧ ∃ pre post, output = pre ++ lit "ESSID:" ++ [dquote] ++ g ++ [dquote] ++ post.
Proof.
  revert g. apply Forall_forall.
  apply (findall_from_Forall
    (λ s g, (dquote ∉ g) ∧ (newline ∉ g)
            ∧ ∃ pre post, s = pre ++ lit "ESSID:" ++ [dquote] ++ g ++ [dquote] ++ post)).
  - intros s g n (? & ? & r & ->)%essid_re_spec. split; [done|]. split; [done|].
    by exists [], r.
  - intros c s g (? & ? & pre & post & ->). split; [done|]. split; [done|].
    by exists (c :: pre), post.
Qed.

Lemma scan_networks_run {S} process (st : S) :
  scan_networks process st =
    match process iwlist_scan with
    | NotStarted e =>
      match e with
      | CalledProcessError _ => (inr [], st, [Print (log_scan_failed e)])
      | _ => (inl e, st, [])
      end
    | Started (inl e) =>
      match e with
      | CalledProcessError _ => (inr [], st, [Run iwlist_scan; Print (log_scan_failed e)])
      | _ => (inl e, st, [Run iwlist_scan])
      end
    | Started (inr cp) =>
      if (returncode cp =? 0)%Z
      then (inr (parse_scan (stdout cp)), st, [Run iwlist_scan])
      else (inr [], st,
            [Run iwlist_scan; Print (log_scan_failed (CalledProcessError (returncode cp)))])
    end.
Proof.
  unfold scan_networks, try_except, subprocess_run, mbind, M_bind, bind, emit.
  simpl. fold iwlist_scan.
  destruct (process iwlist_scan) as [e|[e|cp]]; simpl.
  - by destruct e.
  - by destruct e.
  - by destruct (returncode cp =? 0)%Z.
Qed.

End Parser.

Section Blocks.

#[local] Arguments Unicode.isdecimal : simpl never.
#[local] Arguments Re.address_char : simpl never.

Lemma option_bind_Some {A B} (f : A → option B) (x : A) : Some x ≫= f = f x.
Proof. done. Qed.

Lemma literal_same p s : Re.literal p (p ++ s) = Some s.
Proof. induction p as [|a p IH]; [done|]. simpl. by rewrite N.eqb_refl. Qed.

Lemma digits_app num rest :
  forallb Unicode.isdecimal num = true →
  (∀ c r, rest = c :: r → Unicode.isdecimal c = false) →
  Re.digits (num ++ rest) = num.
Proof.
  intros Hn Hr. induction num as [|c num IH]; simpl.
  - destruct rest as [|c r]; [done|]. simpl. by rewrite (Hr c r).
  - apply andb_true_iff in Hn as [-> Hn]. by rewrite IH.
Qed.

Lemma upto_quote_app name rest :
  dquote ∉ name → newline ∉ name → Re.upto_quote (name ++ dquote :: rest) = Some name.
Proof.
  induction name as [|c name IH]; intros Hq Hn; simpl; [done|].
  apply not_elem_of_cons in Hq as [Hq1 Hq], Hn as [Hn1 Hn].
  rewrite (proj2 (N.eqb_neq c dquote)), (proj2 (N.eqb_neq c newline)) by done.
  by rewrite IH.
Qed.

Lemma findall_from_skip p a s :
  Re.findall_from p (length a) (a ++ s) = Re.findall_from p 0 s.
Proof. induction a as [|c a IH]; [done|]. simpl. apply IH. Qed.

(** A match at the start of a text: its group comes first, and the search
    goes on behind it. *)
Lemma findall_match p m rest g :
  m ≠ [] → p (m ++ rest) = Some (g, length m) →
  Re.findall p (m ++ rest) = g :: Re.findall p rest.
Proof.
  intros Hm Hp. destruct m as [|c m]; [done|]. unfold Re.findall.
  change (Re.findall_from p 0 ((c :: m) ++ rest))
    with (match p ((c :: m) ++ rest) with
          | Some (group, n) => group :: Re.findall_from p (pred n) (m ++ rest)
          | None => Re.findall_from p 0 (m ++ rest)
          end).
  rewrite Hp. simpl. by rewrite findall_from_skip.
Qed.

Lemma findall_no_match p c s :
  p (c :: s) = None → Re.findall p (c :: s) = Re.findall p s.
Proof. intros Hp. unfold Re.findall. simpl. by rewrite Hp. Qed.

Lemma essid_re_first c s : c ≠ 69 → Re.essid_re (c :: s) = None.
Proof.
  intros Hc. unfold Re.essid_re. change (lit "ESSID:" ++ [dquote]) with [69; 83; 83; 73; 68; 58; 34].
  cbn [Re.literal]. by rewrite (proj2 (N.eqb_neq 69 c)).
Qed.

Lemma essid_re_second c c' s : c' ≠ 83 → Re.essid_re (c :: c' :: s) = None.
Proof.
  intros Hc. unfold Re.essid_re. change (lit "ESSID:" ++ [dquote]) with [69; 83; 83; 73; 68; 58; 34].
  cbn [Re.literal]. destruct (69 =? c); [|done]. by rewrite (proj2 (N.eqb_neq 83 c')).
Qed.

Lemma essid_re_single c : Re.essid_re [c] = None.
Proof.
  unfold Re.essid_re. change (lit "ESSID:" ++ [dquote]) with [69; 83; 83; 73; 68; 58; 34].
  cbn [Re.literal]. by destruct (69 =? c).
Qed.

(** No name starts in a piece of text that has no [S], when no [S]
    follows it. *)
Lemma findall_essid_skip pre s :
  83 ∉ pre → (∀ r, s ≠ 83 :: r) →
  Re.findall Re.essid_re (pre ++ s) = Re.findall Re.essid_re s.
Proof.
  intros Hpre Hs. induction pre as [|c pre IH]; [done|].
  apply not_elem_of_cons in Hpre as [Hc Hpre].
  change ((c :: pre) ++ s) with (c :: (pre ++ s)).
  rewrite findall_no_match; [by apply IH|].
  destruct pre as [|c' pre]; simpl.
  - destruct s as [|c' r]; [apply essid_re_single|]. apply essid_re_second.
    intros ->. by eapply Hs.
  - apply essid_re_second. apply not_elem_of_cons in Hpre as [? _]. congruence.
Qed.

Lemma decimal_not_S num : forallb Unicode.isdecimal num = true → 83 ∉ num.
Proof.
  intros H Hin. rewrite forallb_forall in H. apply list_elem_of_In, H in Hin.
  by vm_compute in Hin.
Qed.

Lemma address_not_S addr : forallb Re.address_char addr = true → 83 ∉ addr.
Proof.
  intros H Hin. rewrite forallb_forall in H. apply list_elem_of_In, H in Hin.
  by vm_compute in Hin.
Qed.

Lemma cell_re_block num addr name rest :
  well_formed_block num addr name →
  Re.cell_re (scan_block num addr name ++ rest)
  = Some (addr, (5 + length num + 12 + 17)%nat).
Proof.
  intros (Hne & Hnum & Hlen & Haddr & _). unfold scan_block, Re.cell_re.
  rewrite <- !(assoc_L (++)). rewrite literal_same, option_bind_Some. cbv zeta.
  rewrite digits_app; [|done|].
  2:{ intros c r Hr. change (lit " - Address: ") with (32 :: lit "- Address: ") in Hr.
      injection Hr as <- _. by vm_compute. }
  rewrite bool_decide_eq_false_2 by done.
  rewrite drop_app_length, literal_same, option_bind_Some. cbv zeta.
  rewrite take_app_length' by done.
  rewrite Haddr, bool_decide_eq_true_2 by done. done.
Qed.

Lemma findall_cell_block num addr name rest :
  well_formed_block num addr name →
  ∃ more, Re.findall Re.cell_re (scan_block num addr name ++ rest) = addr :: more.
Proof.
  intros Hwf. pose proof (cell_re_block num addr name rest Hwf) as Hm.
  unfold Re.findall. unfold scan_block in *.
  change (lit "Cell ") with (67 :: lit "ell ") in *. simpl in *. rewrite Hm. eauto.
Qed.

Lemma findall_essid_block num addr name rest :
  well_formed_block num addr name → (∀ r, rest ≠ 83 :: r) →
  Re.findall Re.essid_re (scan_block num addr name ++ rest)
  = name :: Re.findall Re.essid_re rest.
Proof.
  intros (Hne & Hnum & Hlen & Haddr & Hq & Hn) Hrest.
  set (pre := lit "Cell " ++ num ++ lit " - Address: " ++ addr ++ [newline]
              ++ lit "          ").
  set (m := (lit "ESSID:" ++ [dquote]) ++ name ++ [dquote]).
  assert (scan_block num addr name ++ rest = pre ++ m ++ newline :: rest) as ->.
  { unfold scan_block, pre, m.
    change (lit "          ESSID:") with (lit "          " ++ lit "ESSID:").
    by rewrite <- !(assoc_L (++)). }
  rewrite findall_essid_skip.
  - rewrite (findall_match _ m (newline :: rest) name).
    + done.
    + unfold m. by destruct (lit "ESSID:" ++ [dquote]) eqn:?.
    + unfold Re.essid_re, m. rewrite <- !(assoc_L (++)).
      rewrite (assoc_L (++) (lit "ESSID:") [dquote]), literal_same, option_bind_Some.
      change ([dquote] ++ newline :: rest) with (dquote :: newline :: rest).
      rewrite upto_quote_app, option_bind_Some by done. do 2 f_equal.
      rewrite !length_app. simpl. lia.
  - unfold pre. rewrite !not_elem_of_app. repeat split;
      first [by apply decimal_not_S | by apply address_not_S
            | apply (bool_decide_unpack _); by vm_compute].
  - intros r Hr. discriminate Hr.
Qed.

Lemma kept_same_name seen name pairs :
  name ∈ seen → (∀ p, p ∈ pairs → p.2 = name) → kept seen pairs = [].
Proof.
  intros Hs Hp. induction pairs as [|[a e] pairs IH]; [done|]. simpl.
  assert (e = name) as -> by (apply (Hp (a, e)); left).
  rewrite (bool_decide_eq_false_2 (name ∉ seen)) by (by intros []). simpl.
  apply IH. intros p Hin. apply Hp. by right.
Qed.

(** One block gives its record, unless the name is empty. *)
Lemma parse_scan_block num addr name :
  well_formed_block num addr name →
  parse_scan (scan_block num addr name)
  = if bool_decide (name = []) then [] else [{| address := addr; essid := name |}].
Proof.
  intros Hwf. rewrite parse_scan_kept.
  destruct (findall_cell_block num addr name [] Hwf) as [more Hc].
  pose proof (findall_essid_block num addr name [] Hwf ltac:(done)) as He.
  rewrite app_nil_r in Hc, He. rewrite Hc, He.
  change (Re.findall Re.essid_re []) with (@nil pystr).
  assert (zip more (@nil pystr) = []) as Hz by (by destruct more).
  simpl. rewrite Hz. rewrite bool_decide_eq_true_2 by apply not_elem_of_empty. simpl.
  destruct (decide (name = [])) as [Hn|Hn].
  - by rewrite (bool_decide_eq_false_2 (name ≠ [])), (bool_decide_eq_true_2 (name = []))
      by (by try intros []).
  - by rewrite (bool_decide_eq_true_2 (name ≠ [])), (bool_decide_eq_false_2 (name = [])).
Qed.

(** Two blocks with one name give one record, with the first address. *)
Lemma parse_scan_same_name num1 addr1 num2 addr2 name :
  well_formed_block num1 addr1 name → well_formed_block num2 addr2 name →
  parse_scan (scan_block num1 addr1 name ++ scan_block num2 addr2 name)
  = if bool_decide (name = []) then [] else [{| address := addr1; essid := name |}].
Proof.
  intros Hwf1 Hwf2. rewrite parse_scan_kept.
  destruct (findall_cell_block num1 addr1 name (scan_block num2 addr2 name) Hwf1)
    as [more Hc].
  pose proof (findall_essid_block num1 addr1 name (scan_block num2 addr2 name) Hwf1) as He.
  rewrite Hc, He by (intros r Hr; discriminate Hr).
  pose proof (findall_essid_block num2 addr2 name [] Hwf2 ltac:(done)) as He2.
  rewrite app_nil_r in He2. rewrite He2.
  change (Re.findall Re.essid_re []) with (@nil pystr).
  simpl. rewrite bool_decide_eq_true_2 by apply not_elem_of_empty. simpl.
  assert (∀ p, p ∈ zip more [name] → p.2 = name) as Hsame.
  { intros p Hp. destruct more as [|a more]; [by apply elem_of_nil in Hp|].
    simpl in Hp. apply elem_of_cons in Hp as [->|Hp]; [done|].
    destruct more; by apply elem_of_nil in Hp. }
  destruct (decide (name = [])) as [Hn|Hn].
  - rewrite (bool_decide_eq_false_2 (name ≠ [])), (bool_decide_eq_true_2 (name = []))
      by (by try intros []).
    destruct more as [|a more]; [done|]. simpl.
    rewrite (bool_decide_eq_false_2 (name ≠ [])) by (by intros []).
    rewrite andb_false_r. by destruct more.
  - rewrite (bool_decide_eq_true_2 (name ≠ [])), (bool_decide_eq_false_2 (name = []))
      by done.
    f_equal. apply (kept_same_name _ name); [|done].
    apply elem_of_union_l. by apply elem_of_singleton.
Qed.

End Blocks.

Section ParserClaims.

(** C7 fails where it says that a failing scan tool gives an empty list
    rather than an error: when the tool cannot be started, as when it is
    not installed, [scan_networks] raises the error of the call. *)
Lemma C7_scan_tool_not_installed :
  result (scan_networks tools_missing ()) = inl (OtherError "FileNotFoundError").
Proof. reflexivity. Qed.

(** C7, amended. For every raw scan text the parser returns the records in
    first-seen order (a subsequence of the address/name pairs in their
    order of appearance), one per distinct non-empty network name and
    none with an empty name: each record carries the address of the
    first pair with its name, and every non-empty name that occurs has
    its record.  Each record is read off the text: its address follows
    an address label there and its name stands there between double
    quotes after an ESSID label.  A block of scan output gives the
    record of its address and name, and none when the name is empty; two
    blocks with the same name give one record, with the address of the
    first.  The parser never fails: a text without matches gives the
    empty list.  [scan_networks] returns the parse of the output when the
    tool exits with status 0 and the empty list when it exits with
    another status; when the tool cannot be started or its output cannot
    be read as text, it raises the error of the call. *)
Theorem C7_first_seen_unique_names (output : pystr) :
  let pairs := zip (Re.findall Re.cell_re output) (Re.findall Re.essid_re output) in
  let networks := parse_scan output in
  sublist networks (record_of <$> pairs)
  ∧ NoDup (essid <$> networks)
  ∧ (∀ n, n ∈ networks → essid n ≠ [])
  ∧ (∀ n, n ∈ networks →
       ∃ i, pairs !! i = Some (address n, essid n)
            ∧ ∀ j p, (j < i)%nat → pairs !! j = Some p → p.2 ≠ essid n)
  ∧ (∀ addr name, (addr, name) ∈ pairs → name ≠ [] → name ∈ essid <$> networks)
  ∧ (pairs = [] → networks = [])
  ∧ parse_scan [] = []
  ∧ (∀ n, n ∈ networks →
       (∃ pre post, output = pre ++ lit " - Address: " ++ address n ++ post)
       ∧ (∃ pre post,
            output = pre ++ lit "ESSID:" ++ [dquote] ++ essid n ++ [dquote] ++ post))
  ∧ (∀ num addr name,
       well_formed_block num addr name →
       parse_scan (scan_block num addr name)
       = if bool_decide (name = []) then []
         else [{| address := addr; essid := name |}])
  ∧ (∀ num1 addr1 num2 addr2 name,
       well_formed_block num1 addr1 name → well_formed_block num2 addr2 name →
       parse_scan (scan_block num1 addr1 name ++ scan_block num2 addr2 name)
       = if bool_decide (name = []) then []
         else [{| address := addr1; essid := name |}])
  ∧ parse_scan twice_named_output
    = [{| address := lit "00:11:22:33:44:55"; essid := lit "Cafe" |}]
  ∧ parse_scan unnamed_output = []
  ∧ (∀ (S : Type) (process : command → launch) (st : S),
       match process iwlist_scan with
       | Started (inr cp) =>
         result (scan_networks process st)
         = inr (if (returncode cp =? 0)%Z then parse_scan (stdout cp) else [])
       | Started (inl e) | NotStarted e =>
         result (scan_networks process st)
         = match e with CalledProcessError _ => inr [] | _ => inl e end
       end
       ∧ final (scan_networks process st) = st).
Proof.
  intros pairs networks.
  assert (∀ n, n ∈ networks →
            (∃ pre post, output = pre ++ lit " - Address: " ++ address n ++ post)
            ∧ (∃ pre post,
                 output = pre ++ lit "ESSID:" ++ [dquote] ++ essid n ++ [dquote] ++ post))
    as Htext.
  { intros n [(_ & _ & H1)%findall_cell (_ & _ & H2)%findall_essid]%parse_scan_elem.
    by split. }
  subst networks. rewrite parse_scan_kept in *. fold pairs in Htext |- *.
  split; [apply kept_sublist|]. split; [apply kept_NoDup|].
  split; [intros n Hn; by destruct (kept_fresh _ _ _ Hn)|].
  split; [intros n Hn; by apply (kept_first ∅)|].
  split; [intros addr name Hin Hne; by eapply kept_covers|].
  split; [by intros ->|]. split; [done|]. split; [done|].
  split; [apply parse_scan_block|]. split; [apply parse_scan_same_name|].
  split; [by vm_compute|]. split; [by vm_compute|].
  intros S process st. rewrite scan_networks_run.
  destruct (process iwlist_scan) as [e|[e|cp]].
  - by destruct e.
  - by destruct e.
  - by destruct (returncode cp =? 0)%Z.
Qed.

(** C10. For every raw scan text the parser pairs the i-th address match
    with the i-th name match: every record has its address and its name
    at one and the same position of the two match lists, so there are at
    most as many records as the shorter list has matches and the surplus
    matches of the longer list appear in no record.  The pairing is by
    position alone: in the text made of [hidden_block] and [named_block]
    the address of the first block, which has no name, is returned with
    the name of the second block. *)
Theorem C10_pairs_by_position (output : pystr) :
  let addresses := Re.findall Re.cell_re output in
  let essids := Re.findall Re.essid_re output in
  let networks := parse_scan output in
  (length networks ≤ length addresses `min` length essids)%nat
  ∧ (∀ n, n ∈ networks →
       ∃ i, (i < length addresses `min` length essids)%nat
            ∧ addresses !! i = Some (address n) ∧ essids !! i = Some (essid n))
  ∧ (Re.findall Re.cell_re hidden_block = [lit "00:11:22:33:44:55"]
     ∧ Re.findall Re.essid_re hidden_block = []
     ∧ parse_scan named_block
       = [{| address := lit "66:77:88:99:AA:BB"; essid := lit "Cafe" |}]
     ∧ parse_scan (hidden_block ++ named_block)
       = [{| address := lit "00:11:22:33:44:55"; essid := lit "Cafe" |}]).
Proof.
  intros addresses essids networks.
  pose proof (kept_sublist ∅ (zip addresses essids)) as Hsub.
  assert (networks = kept ∅ (zip addresses essids)) as Hn by apply parse_scan_kept.
  rewrite <- Hn in Hsub. split; [|split].
  - apply sublist_length in Hsub. by rewrite length_fmap, length_zip in Hsub.
  - intros n Hin. rewrite Hn in Hin.
    destruct (kept_first _ _ _ Hin) as (i & Hi & _). exists i.
    pose proof (lookup_lt_Some _ _ _ Hi) as Hlt. rewrite length_zip in Hlt.
    apply lookup_zip_with_Some in Hi as (a & e & [= <- <-] & Ha & He). done.
  - by vm_compute.
Qed.

(** The two cases of the specification. *)
Example scan_same_name_twice :
  parse_scan twice_named_output
  = [{| address := lit "00:11:22:33:44:55"; essid := lit "Cafe" |}].
Proof. by vm_compute. Qed.

Example scan_empty_name : parse_scan unnamed_output = [].
Proof. by vm_compute. Qed.

End ParserClaims.

Lemma cafe_block_well_formed num addr :
  (num, addr) ∈ [(lit "01", lit "00:11:22:33:44:55"); (lit "02", lit "66:77:88:99:AA:BB")] →
  well_formed_block num addr (lit "Cafe") ∧ well_formed_block num addr [].
Proof.
  intros H. repeat (apply elem_of_cons in H as [[= -> ->]|H]);
    [| |by apply elem_of_nil in H];
    (split; (split; [done|]); repeat (split; [done|]);
       split; apply (bool_decide_unpack _); by vm_compute).
Qed.

Lemma C7_first_seen_unique_names_witness :
  parse_scan (scan_block (lit "01") (lit "00:11:22:33:44:55") (lit "Cafe"))
  = [{| address := lit "00:11:22:33:44:55"; essid := lit "Cafe" |}]
  ∧ parse_scan (scan_block (lit "01") (lit "00:11:22:33:44:55") (lit "Cafe")
                ++ scan_block (lit "02") (lit "66:77:88:99:AA:BB") (lit "Cafe"))
    = [{| address := lit "00:11:22:33:44:55"; essid := lit "Cafe" |}]
  ∧ parse_scan (scan_block (lit "02") (lit "66:77:88:99:AA:BB") []) = [].
Proof.
  destruct (C7_first_seen_unique_names []) as (_ & _ & _ & _ & _ & _ & _ & _ & Hb & Hs & _).
  assert ((lit "01", lit "00:11:22:33:44:55")
          ∈ [(lit "01", lit "00:11:22:33:44:55"); (lit "02", lit "66:77:88:99:AA:BB")])
    as H1 by (apply (bool_decide_unpack _); by vm_compute).
  assert ((lit "02", lit "66:77:88:99:AA:BB")
          ∈ [(lit "01", lit "00:11:22:33:44:55"); (lit "02", lit "66:77:88:99:AA:BB")])
    as H2 by (apply (bool_decide_unpack _); by vm_compute).
  destruct (cafe_block_well_formed _ _ H1) as [W1 _].
  destruct (cafe_block_well_formed _ _ H2) as [W2 W2'].
  split; [exact (Hb _ _ _ W1)|]. split; [exact (Hs _ _ _ _ _ W1 W2)|exact (Hb _ _ _ W2')].
Defined.

(** ** The managed objects *)
Section ManagedObjects.
Import Application.

Lemma GetManagedObjects_run app :
  GetManagedObjects app = (inr (foldl ins ∅ (entries app)), app, []).
Proof.
  unfold GetManagedObjects, mbind, M_bind, bind, get. simpl. do 3 f_equal.
  unfold entries. generalize (∅ : gmap string interfaces).
  induction (services app) as [|svc svcs IH]; intros m; [done|].
  simpl. rewrite foldl_app, <- IH. f_equal.
  unfold service_entries. simpl. by rewrite foldl_fmap.
Qed.

Lemma foldl_ins_list_to_map (l : list (string * interfaces)) :
  NoDup (l.*1) → foldl ins ∅ l = list_to_map l.
Proof.
  induction l as [|[k v] l IH] using rev_ind; intros Hnd; [done|].
  rewrite fmap_app in Hnd. apply NoDup_app in Hnd as (Hl & Hk & _).
  rewrite foldl_app, IH by done. simpl. unfold ins at 1. simpl.
  rewrite list_to_map_snoc; [done|]. intros Hin. apply (Hk _ Hin). simpl. by left.
Qed.

Lemma length_append (a b : string) :
  String.length (a +:+ b) = (String.length a + String.length b)%nat.
Proof. induction a as [|c a IH]; simpl; [done|by rewrite IH]. Qed.

Lemma append_ne_prefix (a b : string) : b ≠ "" → a +:+ b ≠ a.
Proof.
  intros Hb Heq. apply (f_equal String.length) in Heq. rewrite length_append in Heq.
  destruct b; [done|]. simpl in Heq. lia.
Qed.

Lemma object_path_longer app p :
  Forall service_registered (services app) → p ∈ object_paths app →
  (String.length PATH_BASE < String.length p)%nat.
Proof.
  unfold object_paths, entries. intros Hreg Hin.
  apply list_elem_of_fmap in Hin as ([p' props] & -> & Hin). simpl.
  apply list_elem_of_bind in Hin as (svc & Hin & Hsvc).
  rewrite Forall_forall in Hreg. destruct (Hreg _ Hsvc) as [Hpath Hchs].
  assert (String.length PATH_BASE < String.length (MyService.path svc))%nat as Hlt.
  { rewrite Hpath, !length_append. simpl. lia. }
  apply elem_of_cons in Hin as [[= -> _]|Hin]; [done|].
  apply list_elem_of_fmap in Hin as (ch & [= -> _] & Hch).
  rewrite Forall_forall in Hchs. specialize (Hchs _ Hch).
  destruct ch as [c|n]; destruct Hchs as [Hp _]; simpl; unfold MyCharacteristic.get_path,
    NotifyCharacteristic.get_path; rewrite Hp, !length_append; simpl in *; lia.
Qed.

Lemma length_entries app :
  length (entries app)
  = (length (services app)
     + sum_list ((λ svc, length (MyService.characteristics svc)) <$> services app))%nat.
Proof.
  unfold entries. induction (services app) as [|svc svcs IH]; [done|].
  rewrite bind_cons, length_app, IH, fmap_cons. simpl. rewrite length_fmap. lia.
Qed.

(** C6, as the claim states it, fails where it has the mapping reflect
    the last-written value: the application in which [hello] was written
    and stored returns the same mapping as the initial application, whose
    last-written value is the zero byte. *)
Lemma C6_mapping_without_last_written :
  last_written Application.init = [["000"%byte]]
  ∧ last_written app_written = [bytes_of (lit "hello")]
  ∧ result (GetManagedObjects app_written) = result (GetManagedObjects Application.init).
Proof. split; [done|]. split; [done|]. rewrite !GetManagedObjects_run. reflexivity. Qed.

(** C6, amended. For every application as the constructors build it,
    GetManagedObjects returns, without error or effect on the state, a
    mapping whose keys are exactly the paths of the services and of their
    characteristics: one entry per service and per characteristic, none
    for the application root.  Each entry is the property map the object
    reports at the time of the call: that of a notify characteristic
    holds its current value, that of a read/write characteristic is the
    same whatever was written last.  With no service the mapping is
    empty, and a second call on the state the first one leaves returns
    the same mapping. *)
Theorem C6_managed_objects (app : Application.t) :
  registered app →
  ∃ mapped : gmap string interfaces,
    GetManagedObjects app = (inr mapped, app, [])
    ∧ (∀ p, p ∈ dom mapped ↔ p ∈ object_paths app)
    ∧ size mapped
      = (length (services app)
         + sum_list ((λ svc, length (MyService.characteristics svc)) <$> services app))%nat
    ∧ (get_path app ∉ dom mapped)
    ∧ (∀ svc, svc ∈ services app →
         mapped !! MyService.get_path svc = Some (MyService.get_properties svc)
         ∧ (∀ n, NotifyChrc n ∈ MyService.characteristics svc →
              ∃ props,
                mapped !! NotifyCharacteristic.get_path n = Some {[ GATT_CHRC_IFACE := props ]}
                ∧ props !! "Value" = Some (DArray_y (NotifyCharacteristic.value n)))
         ∧ (∀ c, Chrc c ∈ MyService.characteristics svc →
              ∀ v, mapped !! MyCharacteristic.get_path c
                   = Some (MyCharacteristic.get_properties (MyCharacteristic.set_value v c))))
    ∧ (services app = [] → mapped = ∅)
    ∧ GetManagedObjects (final (GetManagedObjects app)) = GetManagedObjects app.
Proof.
  intros (Hroot & Hreg & Hnd). exists (list_to_map (entries app)).
  assert (GetManagedObjects app = (inr (list_to_map (entries app)), app, [])) as Hrun.
  { by rewrite GetManagedObjects_run, foldl_ins_list_to_map. }
  assert (∀ p, p ∈ dom (list_to_map (entries app) : gmap string interfaces)
               ↔ p ∈ object_paths app) as Hdom.
  { intros p. rewrite dom_list_to_map_L. unfold object_paths. set_solver. }
  assert (∀ svc ch, svc ∈ services app → ch ∈ MyService.characteristics svc →
            (list_to_map (entries app) : gmap string interfaces)
              !! characteristic_get_path ch = Some (characteristic_get_properties ch))
    as Hch.
  { intros svc ch Hsvc Hin. apply elem_of_list_to_map_1; [done|].
    unfold entries. apply list_elem_of_bind. exists svc. split; [|done].
    unfold service_entries. right. apply list_elem_of_fmap. by exists ch. }
  split; [done|]. split; [done|].
  split; [by rewrite map_size_list_to_map, length_entries|]. split; [|split; [|split]].
  - rewrite Hdom. intros Hin. apply (object_path_longer _ _ Hreg) in Hin.
    unfold get_path in Hin. rewrite Hroot in Hin. lia.
  - intros svc Hsvc. split; [|split].
    + apply elem_of_list_to_map_1; [done|].
      unfold entries. apply list_elem_of_bind. exists svc. split; [by left|done].
    + intros n Hn. eexists. split; [apply (Hch svc (NotifyChrc n) Hsvc Hn)|done].
    + intros c Hc v. apply (Hch svc (Chrc c) Hsvc Hc).
  - unfold entries. by intros ->.
  - by rewrite Hrun.
Qed.

Lemma init_registered : registered Application.init.
Proof.
  split; [done|]. split.
  - repeat constructor.
  - apply (bool_decide_unpack _). by vm_compute.
Qed.

Lemma C6_managed_objects_witness :
  ∃ mapped : gmap string interfaces,
    result (GetManagedObjects Application.init) = inr mapped
    ∧ size mapped = 3%nat
    ∧ ("/org/bluez/example" ∉ dom mapped)
    ∧ ∀ p, p ∈ dom mapped ↔ p ∈ [ "/org/bluez/example/service0";
                                   "/org/bluez/example/service0/char0";
                                   "/org/bluez/example/service0/char_notify1" ].
Proof.
  destruct (C6_managed_objects Application.init init_registered)
    as (mapped & Hrun & Hdom & Hsize & Hroot & _).
  exists mapped. rewrite Hrun. split; [done|]. split; [exact Hsize|].
  split; [exact Hroot|]. intros p. rewrite Hdom. reflexivity.
Defined.

End ManagedObjects.

(** ** Writes to the read/write characteristic *)
Section Preservation.
Context {S : Type} (P : S → Prop).

Lemma preserves_ret {A} (a : A) : preserves P (mret a : M S A).
Proof. by intros s. Qed.

Lemma preserves_raise {A} e : preserves P (raise e : M S A).
Proof. by intros s. Qed.

Lemma preserves_emit ev : preserves P (emit ev : M S unit).
Proof. by intros s. Qed.

Lemma preserves_print l : preserves P (print l : M S unit).
Proof. intros s. unfold print. by destruct (printable l). Qed.

Lemma preserves_get : preserves P (get : M S S).
Proof. by intros s. Qed.

Lemma preserves_bind {A B} (m : M S A) (k : A → M S B) :
  preserves P m → (∀ a, preserves P (k a)) → preserves P (m ≫= k).
Proof.
  intros Hm Hk s Hs. specialize (Hm s Hs). unfold mbind, M_bind, bind.
  destruct (m s) as [[[e|a] s1] t1]; [done|].
  specialize (Hk a s1 Hm). by destruct (k a s1) as [[r s2] t2].
Qed.

Lemma preserves_try {A} (m : M S A) h :
  preserves P m → (∀ e, preserves P (h e)) → preserves P (try_except m h).
Proof.
  intros Hm Hh s Hs. specialize (Hm s Hs). unfold try_except.
  destruct (m s) as [[[e|a] s1] t1]; [|done].
  specialize (Hh e s1 Hm). by destruct (h e s1) as [[r s2] t2].
Qed.

End Preservation.

Create HintDb preserve.
#[local] Hint Resolve preserves_ret preserves_raise preserves_emit preserves_print
  preserves_get : preserve.

Ltac preserve_step :=
  lazymatch goal with
  | |- preserves _ (mbind _ _) => apply preserves_bind; [|intros ?]
  | |- preserves _ (try_except _ _) => apply preserves_try; [|intros ?]
  | |- preserves _ (if ?b then _ else _) => destruct b
  | |- preserves _ (match ?x with _ => _ end) => destruct x
  | |- preserves _ _ => solve [eauto with preserve]
  end.

Ltac preserve := repeat preserve_step.

Section WriteValueLemmas.
Variable json_loads : pystr → exn + pyvalue.
Variable process : command → launch.

Lemma decode_encodable value text : Utf8.decode value = Some text → encodable text = true.
Proof.
  intros H%decode_encode. unfold encodable. rewrite H. by apply bool_decide_eq_true_2.
Qed.

Lemma print_run {S} l (s : S) : printable l = true → print l s = (inr (), s, [Print l]).
Proof. intros H. unfold print. by rewrite H. Qed.


Lemma preserves_subprocess_run {S} (P : S → Prop) c check :
  preserves P (subprocess_run process c check).
Proof. unfold subprocess_run. preserve. Qed.

#[local] Hint Resolve preserves_subprocess_run : preserve.

Lemma preserves_scan_networks {S} (P : S → Prop) :
  preserves P (scan_networks process).
Proof. unfold scan_networks. preserve. Qed.

Lemma call_notify_char_keeps {A} self c (m : M NotifyCharacteristic.t A) :
  preserves (chrc_at self c) (call_notify_char m).
Proof.
  intros s Hs. unfold call_notify_char, mbind, M_bind, bind, get. simpl.
  destruct (MyService.characteristics s !! MyService.notify_char s) as [[c'|n]|] eqn:Hn;
    try done.
  unfold zoom. destruct (m n) as [[r n'] t]. simpl.
  unfold chrc_at in *. destruct s; simpl in *.
  rewrite list_lookup_insert_ne; [done|]. intros <-. congruence.
Qed.

Lemma dispatch_keeps self c value :
  preserves (chrc_at self c) (dispatch json_loads process value).
Proof.
  pose proof (preserves_scan_networks (chrc_at self c)).
  pose proof (@call_notify_char_keeps unit self c).
  unfold dispatch, bytes_decode, data_get, notify_char_send_notification. preserve.
Qed.

Lemma pushes_app t1 t2 : pushes (t1 ++ t2) = pushes t1 ++ pushes t2.
Proof. apply omap_app. Qed.

Lemma runs_app t1 t2 : runs (t1 ++ t2) = runs t1 ++ runs t2.
Proof. apply omap_app. Qed.

Lemma with_chrc_id self c s : chrc_at self c s → with_chrc self c s = s.
Proof.
  unfold chrc_at, with_chrc. intros H. destruct s; simpl in *.
  unfold MyService.set_characteristics; simpl. f_equal. by apply list_insert_id.
Qed.

Lemma chrc_at_with_chrc self c c' s : chrc_at self c s → chrc_at self c' (with_chrc self c' s).
Proof.
  unfold chrc_at, with_chrc. intros H. destruct s; simpl in *.
  apply list_lookup_insert_eq. by eapply lookup_lt_Some.
Qed.

Lemma store_value_run self c value s :
  chrc_at self c s →
  store_value self value s
  = (inr (), with_chrc self (MyCharacteristic.set_value value c) s, []).
Proof.
  intros H. unfold store_value, call_chrc, mbind, M_bind, bind, get. simpl.
  unfold chrc_at in H. by rewrite H.
Qed.

Lemma ReadValue_run self c options s :
  chrc_at self c s →
  ReadValue self options s = (inr (MyCharacteristic.value c), s, [Print log_ReadValue]).
Proof.
  intros H. unfold ReadValue, call_chrc, mbind, M_bind, bind, get. simpl.
  pose proof (with_chrc_id _ _ _ H) as Hid. unfold chrc_at in H. rewrite H. simpl.
  unfold with_chrc in Hid. by rewrite Hid.
Qed.

(** [WriteValue] in terms of the body of its [try]. *)
Lemma WriteValue_run self c value options s :
  chrc_at self c s →
  let d := dispatch json_loads process value s in
  let w := WriteValue json_loads process self value options s in
  result w = inr ()
  ∧ final w = (if returned d then final d
               else with_chrc self (MyCharacteristic.set_value value c) (final d))
  ∧ pushes (trace w) = pushes (trace d)
  ∧ runs (trace w) = runs (trace d)
  ∧ signals (trace w) = signals (trace d).
Proof.
  intros H d w. pose proof (dispatch_keeps self c value s H) as Hk. fold d in Hk.
  subst w. unfold WriteValue, try_except, mbind, M_bind, bind. fold d.
  destruct d as [[[e|[|]] s1] t1]; simpl in *.
  - destruct e; simpl; rewrite (store_value_run _ _ _ _ Hk); simpl;
      unfold pushes, runs, signals; rewrite !omap_app; simpl; by rewrite !app_nil_r.
  - by rewrite !app_nil_r.
  - rewrite (store_value_run _ _ _ _ Hk); simpl. by rewrite !app_nil_r.
Qed.

Lemma dispatch_undecodable value s :
  Utf8.decode value = None →
  dispatch json_loads process value s = (inl UnicodeDecodeError, s, []).
Proof.
  intros H. unfold dispatch, bytes_decode. rewrite H. done.
Qed.

Lemma bind_ret_run {S A B} (a : A) (k : A → M S B) s : (mret a ≫= k) s = k a s.
Proof.
  unfold mbind, M_bind, bind, mret, M_ret, ret. by destruct (k a s) as [[r s2] t2].
Qed.

Lemma bind_print_run {S B} l (k : unit → M S B) s :
  printable l = true →
  (print l ≫= k) s = let '(r, s2, t2) := k () s in (r, s2, Print l :: t2).
Proof. intros H. unfold mbind, M_bind, bind. by rewrite print_run. Qed.


Lemma bind_ret_returned {S A} (a : A) (k : A → M S flow) s :
  returned ((mret a ≫= k) s) = returned (k a s).
Proof. by rewrite bind_ret_run. Qed.

Lemma bind_print_returned {S} l (k : unit → M S flow) s :
  printable l = true → returned ((print l ≫= k) s) = returned (k () s).
Proof.
  intros H. rewrite bind_print_run by done. unfold returned, result.
  by destruct (k () s) as [[r s2] t2].
Qed.


(** What a handler that only prints leaves of an exception. *)
Lemma try_except_print {S} (m : M S unit) (l : exn → log_line) s :
  (∀ e, printable (l e) = true) →
  result (try_except m (λ e, print (l e)) s) = inr ().
Proof.
  intros Hl. unfold try_except. destruct (m s) as [[[e|[]] s1] t1]; [|done].
  by rewrite print_run.
Qed.

Lemma dispatch_scan_wifi value s :
  Utf8.decode value = Some (lit "SCAN_WIFI") →
  returned (dispatch json_loads process value s) = true.
Proof.
  intros H. unfold dispatch, bytes_decode. rewrite H.
  rewrite bind_ret_returned, bind_print_returned by done.
  rewrite bool_decide_eq_true_2 by done.
  unfold returned, result, mbind, M_bind, bind.
  match goal with |- context [try_except ?m ?h s] =>
    pose proof (try_except_print m (λ e, log_some_error e) s (λ _, eq_refl)) as Hr;
    destruct (try_except m h s) as [[[e|[]] s1] t1] end; [done|done].
Qed.

Lemma dispatch_not_json value text e s :
  Utf8.decode value = Some text → text ≠ lit "SCAN_WIFI" → json_loads text = inl e →
  dispatch json_loads process value s = (inl e, s, [Print (log_WriteValue text)]).
Proof.
  intros H Hne He. pose proof (decode_encodable _ _ H) as Henc.
  unfold dispatch, bytes_decode. rewrite H.
  rewrite bind_ret_run, bind_print_run by done.
  rewrite bool_decide_eq_false_2 by done. by rewrite He.
Qed.



(** The dict that was parsed, as far as the line that shows the
    credentials. *)
Lemma dispatch_dict value text d s :
  Utf8.decode value = Some text → text ≠ lit "SCAN_WIFI" →
  json_loads text = inr (PyDict d) →
  let ssid := dict_get d (lit "ssid") in
  let password := dict_get d (lit "password") in
  dispatch json_loads process value s
  = let '(r, s2, t2) :=
      (print (log_ssid_password ssid password) ≫= λ _,
         if negb (truthy ssid) || negb (truthy password) then
           print log_missing;;
           mret Returned
         else
           result ← subprocess_run process iwlist_grep false;
           let output := scan_status result in
           print log_notifying;;
           notify_char_send_notification output;;
           result ← subprocess_run process (nmcli_connect ssid password) false;
           (if (returncode result =? 0)%Z then
              print log_accepted;;
              notify_char_send_notification connected_marker
            else
              print log_failed;;
              notify_char_send_notification failed_marker;;
              print log_config_updated);;
           mret Completed) s in
    (r, s2, Print (log_WriteValue text) :: Print (log_parsed_json (PyDict d)) :: t2).
Proof.
  intros H Hne He ssid password. pose proof (decode_encodable _ _ H) as Henc.
  unfold dispatch, bytes_decode. rewrite H.
  rewrite bind_ret_run, bind_print_run by done.
  rewrite bool_decide_eq_false_2 by done. rewrite He.
  rewrite bind_ret_run, bind_print_run by done.
  unfold data_get. rewrite !bind_ret_run. fold ssid password.
  by destruct ((print (log_ssid_password ssid password) ≫= _) s) as [[r s2] t2].
Qed.


Lemma dispatch_missing value text d s :
  Utf8.decode value = Some text → text ≠ lit "SCAN_WIFI" →
  json_loads text = inr (PyDict d) →
  str_encodable (dict_get d (lit "ssid")) && str_encodable (dict_get d (lit "password"))
  = true →
  truthy (dict_get d (lit "ssid")) && truthy (dict_get d (lit "password")) = false →
  dispatch json_loads process value s
  = (inr Returned, s,
     [Print (log_WriteValue text); Print (log_parsed_json (PyDict d));
      Print (log_ssid_password (dict_get d (lit "ssid")) (dict_get d (lit "password")));
      Print log_missing]).
Proof.
  intros H Hne He Hp Ht. rewrite (dispatch_dict _ _ _ _ H Hne He).
  rewrite bind_print_run by done. rewrite <- negb_andb, Ht. done.
Qed.



Lemma is_text_app s1 s2 : is_text (s1 ++ s2) ↔ is_text s1 ∧ is_text s2.
Proof. unfold is_text. rewrite forallb_app. apply andb_true_iff. Qed.





Lemma notify_at_with_notify n n' s : notify_at n s → notify_at n' (with_notify n' s).
Proof.
  unfold notify_at, with_notify. intros H. destruct s; simpl in *.
  apply list_lookup_insert_eq. by eapply lookup_lt_Some.
Qed.


#[local] Arguments notify_char_send_notification : simpl never.
#[local] Arguments scan_status : simpl never.



Lemma subprocess_run_has_nul {S} c check (s : S) :
  fs_encodable c = true → has_nul c = true →
  subprocess_run process c check s = (inl (OtherError "ValueError"), s, []).
Proof. intros He Hn. unfold subprocess_run. by rewrite He, Hn. Qed.





(** The read that follows a write: the bytes written, or the old value
    when the body of the [try] ended by [return]. *)
Lemma read_after_write self c s value options options' :
  chrc_at self c s →
  let d := dispatch json_loads process value s in
  let w := WriteValue json_loads process self value options s in
  result (ReadValue self options' (final w))
  = inr (if returned d then MyCharacteristic.value c else value).
Proof.
  intros H d w. destruct (WriteValue_run self c value options s H) as (_ & Hf & _).
  fold d w in Hf. rewrite Hf.
  pose proof (dispatch_keeps self c value s H) as Hk. fold d in Hk.
  destruct (returned d).
  - by rewrite (ReadValue_run _ _ _ _ Hk).
  - by rewrite (ReadValue_run _ _ _ _ (chrc_at_with_chrc _ _ _ _ Hk)).
Qed.

(** C1. A write never fails, and the read that follows returns the bytes
    written unless the body of the [try] in WriteValue ended by
    [return]; then the store is skipped and the read returns the value
    the characteristic had before.  The write of SCAN_WIFI is such a
    write: after it, ReadValue returns the old value, not the bytes of
    SCAN_WIFI. *)
Theorem C1_write_then_read (self : nat) (c : MyCharacteristic.t) (s : MyService.t)
    (value : list byte) (options options' : properties) :
  chrc_at self c s →
  let d := dispatch json_loads process value s in
  let w := WriteValue json_loads process self value options s in
  result w = inr ()
  ∧ result (ReadValue self options' (final w))
    = inr (if returned d then MyCharacteristic.value c else value)
  ∧ (Utf8.decode value = Some (lit "SCAN_WIFI") → returned d = true).
Proof.
  intros H d w. destruct (WriteValue_run self c value options s H) as (Hr & _).
  split; [done|]. split; [by apply read_after_write | apply dispatch_scan_wifi].
Qed.

(** C2. Of the three rejected writes - bytes that are not UTF-8, the
    text [not json], the object with an ssid and no password - none
    pushes a notification or starts a process.  The first two are stored
    as the last-written value; the third is not: WriteValue returns
    before the store, and ReadValue still gives the previous value. *)
Theorem C2_rejected_writes (self : nat) (c : MyCharacteristic.t) (s : MyService.t)
    (options : properties) (e : exn) :
  chrc_at self c s →
  json_loads (lit "not json") = inl e →
  json_loads (qlit "{'ssid':'x'}") = inr (PyDict [(lit "ssid", PyStr (lit "x"))]) →
  let write value := WriteValue json_loads process self value options s in
  let read value := result (ReadValue self options (final (write value))) in
  (∀ value, Utf8.decode value = None →
     pushes (trace (write value)) = [] ∧ runs (trace (write value)) = []
     ∧ read value = inr value)
  ∧ (pushes (trace (write (bytes_of (lit "not json")))) = []
     ∧ runs (trace (write (bytes_of (lit "not json")))) = []
     ∧ read (bytes_of (lit "not json")) = inr (bytes_of (lit "not json")))
  ∧ (pushes (trace (write (bytes_of (qlit "{'ssid':'x'}")))) = []
     ∧ runs (trace (write (bytes_of (qlit "{'ssid':'x'}")))) = []
     ∧ read (bytes_of (qlit "{'ssid':'x'}")) = inr (MyCharacteristic.value c)).
Proof.
  intros H He Hd write read.
  assert (∀ value, let d := dispatch json_loads process value s in
            pushes (trace (write value)) = pushes (trace d)
            ∧ runs (trace (write value)) = runs (trace d)
            ∧ read value = inr (if returned d then MyCharacteristic.value c else value))
    as Hw.
  { intros value d. destruct (WriteValue_run self c value options s H) as (_ & _ & Hp & Hr & _).
    pose proof (read_after_write self c s value options options H) as Hread.
    done. }
  split; [|split].
  - intros value Hv. destruct (Hw value) as (-> & -> & ->).
    by rewrite (dispatch_undecodable _ _ Hv).
  - destruct (Hw (bytes_of (lit "not json"))) as (-> & -> & ->).
    by rewrite (dispatch_not_json (bytes_of (lit "not json")) (lit "not json") e s
                  eq_refl ltac:(done) He).
  - destruct (Hw (bytes_of (qlit "{'ssid':'x'}"))) as (-> & -> & ->).
    by rewrite (dispatch_missing (bytes_of (qlit "{'ssid':'x'}")) (qlit "{'ssid':'x'}") _ s
                  eq_refl ltac:(done) Hd eq_refl eq_refl).
Qed.


End WriteValueLemmas.


(** ** The states of the application *)

Section Reachable.
Variable json_loads : pystr → exn + pyvalue.

Lemma Forall2_insert_r {A B} (P : A → B → Prop) l k i y :
  Forall2 P l k → (∀ x, l !! i = Some x → P x y) → Forall2 P l (<[i:=y]> k).
Proof.
  intros H. revert i. induction H as [|x y' l k Hxy H IH]; intros [|i] Hi; simpl;
    constructor; auto.
Qed.

Lemma same_chrc_refl ch : same_chrc ch ch.
Proof. by destruct ch. Qed.

Lemma same_service_refl svc : same_service svc svc.
Proof.
  split; [done|]. split; [done|].
  apply Forall2_same_length_lookup. split; [done|].
  intros i x y Hx Hy. assert (x = y) as -> by congruence. apply same_chrc_refl.
Qed.

(** A method of a characteristic that leaves the identity of the object
    alone leaves the service the same service. *)
Lemma call_notify_char_same {A} svc (m : M NotifyCharacteristic.t A) :
  (∀ n, same_chrc (NotifyChrc n) (NotifyChrc (final (m n)))) →
  preserves (same_service svc) (call_notify_char m).
Proof.
  intros Hm s (Hp & Hi & Hc). unfold call_notify_char, mbind, M_bind, bind, get. simpl.
  destruct (MyService.characteristics s !! MyService.notify_char s) as [[c'|n]|] eqn:Hn;
    try done.
  unfold zoom. specialize (Hm n). destruct (m n) as [[r n'] t]. simpl in *.
  split; [by destruct s|]. split; [by destruct s|]. destruct s; simpl in *.
  apply Forall2_insert_r; [done|]. intros x Hx.
  pose proof (Forall2_lookup_lr _ _ _ _ _ _ Hc Hx Hn) as Hxn.
  destruct x as [c|n0]; [done|]. simpl in *.
  unfold final in *. simpl in *.
  destruct Hm as (? & ? & ?), Hxn as (? & ? & ?). repeat split; congruence.
Qed.

Lemma call_chrc_same {A} svc self (m : M MyCharacteristic.t A) :
  (∀ c, same_chrc (Chrc c) (Chrc (final (m c)))) →
  preserves (same_service svc) (call_chrc self m).
Proof.
  intros Hm s (Hp & Hi & Hc). unfold call_chrc, mbind, M_bind, bind, get. simpl.
  destruct (MyService.characteristics s !! self) as [[c|n]|] eqn:Hn; try done.
  unfold zoom. specialize (Hm c). destruct (m c) as [[r c'] t]. simpl in *.
  split; [by destruct s|]. split; [by destruct s|]. destruct s; simpl in *.
  apply Forall2_insert_r; [done|]. intros x Hx.
  pose proof (Forall2_lookup_lr _ _ _ _ _ _ Hc Hx Hn) as Hxn.
  destruct x as [c0|n0]; [|done]. simpl in *.
  unfold final in *. simpl in *.
  destruct Hm as (? & ? & ?), Hxn as (? & ? & ?). repeat split; congruence.
Qed.

Lemma send_notification_same message n :
  same_chrc (NotifyChrc n)
    (NotifyChrc (final (NotifyCharacteristic.send_notification message n))).
Proof.
  destruct (NotifyCharacteristic.notifying n) eqn:Hn.
  - destruct (Utf8.encode message) as [bs|] eqn:He.
    + by rewrite (send_notification_subscribed _ _ _ Hn He).
    + by rewrite (send_notification_unencodable _ _ Hn He).
  - by rewrite (send_notification_unsubscribed _ _ Hn).
Qed.

Lemma WriteValue_same svc process self value options :
  preserves (same_service svc) (WriteValue json_loads process self value options).
Proof.
  pose proof (preserves_scan_networks process (same_service svc)).
  pose proof (preserves_subprocess_run process (same_service svc)).
  pose proof (λ message, call_notify_char_same svc _ (send_notification_same message)).
  assert (preserves (same_service svc) (store_value self value)).
  { apply call_chrc_same. by intros c. }
  unfold WriteValue, dispatch, bytes_decode, data_get, notify_char_send_notification.
  preserve.
Qed.

Lemma serve_same svc call : same_service svc (final (serve json_loads call svc)).
Proof.
  destruct call as [process self value options| |]; simpl.
  - apply WriteValue_same, same_service_refl.
  - apply call_notify_char_same; [by intros n|apply same_service_refl].
  - apply call_notify_char_same; [by intros n|apply same_service_refl].
Qed.

Lemma same_service_entries svc svc' :
  same_service svc svc' → (service_entries svc').*1 = (service_entries svc).*1.
Proof.
  intros (Hp & _ & Hc). unfold service_entries. rewrite !fmap_cons. simpl.
  unfold MyService.get_path. rewrite Hp. f_equal. rewrite <- !list_fmap_compose.
  induction Hc as [|ch ch' l l' H Hc IH]; [done|]. rewrite !fmap_cons, IH. f_equal.
  destruct ch, ch'; try done; simpl in *; by destruct H.
Qed.

Lemma same_service_registered svc svc' :
  same_service svc svc' → service_registered svc → service_registered svc'.
Proof.
  intros (Hp & Hi & Hc) [Hpath Hchs]. split; [by rewrite Hp, Hi|].
  induction Hc as [|ch ch' l l' H Hc IH]; [done|].
  apply Forall_cons in Hchs as [Hch Hchs]. constructor; [|by apply IH].
  destruct ch, ch'; try done; simpl in *; destruct H as (-> & -> & ->); by rewrite Hp.
Qed.

Lemma after_call_registered k call app :
  registered app → registered (after_call json_loads k call app).
Proof.
  intros (Hroot & Hreg & Hnd). split; [done|]. split.
  - unfold after_call. simpl. apply Forall_alter; [done|].
    intros svc _ Hsvc. eapply same_service_registered; [apply serve_same|done].
  - assert (object_paths (after_call json_loads k call app) = object_paths app) as ->; [|done].
    unfold object_paths, entries, after_call. simpl. clear. revert k.
    induction (Application.services app) as [|svc svcs IH]; intros k; [done|].
    destruct k as [|k]; csimpl; rewrite !fmap_app; [|by rewrite IH].
    pose proof (same_service_entries _ _ (serve_same svc call)) as He.
    unfold service_entries in He. rewrite !fmap_cons in He. simpl in He.
    injection He as H1 H2. by rewrite H1, H2.
Qed.

(** Every state the application goes through is as the constructors
    built it. *)
Lemma reachable_registered app : reachable json_loads app → registered app.
Proof.
  induction 1 as [|app k call _ IH]; [apply init_registered|by apply after_call_registered].
Qed.

End Reachable.

(** The theorems above, run on the service of the program with the
    reference decoder. *)

Lemma C1_write_then_read_witness :
  let w := WriteValue Json.loads tools_ok 0 (bytes_of (lit "SCAN_WIFI")) ∅ service0 in
  result w = inr ()
  ∧ result (ReadValue 0 ∅ (final w)) = inr ["000"%byte].
Proof.
  intros w.
  destruct (C1_write_then_read Json.loads tools_ok 0 chrc0 service0
              (bytes_of (lit "SCAN_WIFI")) ∅ ∅ eq_refl) as (Hr & Hread & Hret).
  rewrite (Hret eq_refl) in Hread. split; [exact Hr | exact Hread].
Defined.

Lemma C2_rejected_writes_witness :
  let write value := WriteValue Json.loads tools_ok 0 value ∅ service0 in
  pushes (trace (write (bytes_of (qlit "{'ssid':'x'}")))) = []
  ∧ runs (trace (write (bytes_of (qlit "{'ssid':'x'}")))) = []
  ∧ result (ReadValue 0 ∅ (final (write (bytes_of (qlit "{'ssid':'x'}")))))
    = inr ["000"%byte]
  ∧ result (ReadValue 0 ∅ (final (write [byte_of_N 255]))) = inr [byte_of_N 255].
Proof.
  intros write.
  destruct (C2_rejected_writes Json.loads tools_ok 0 chrc0 service0 ∅ JSONDecodeError
              eq_refl eq_refl eq_refl) as (Hbad & _ & Hp & Hr & Hread).
  destruct (Hbad [byte_of_N 255] eq_refl) as (_ & _ & Hread').
  split; [exact Hp|]. split; [exact Hr|]. split; [exact Hread | exact Hread'].
Defined.

Lemma tools_ok_text : text_output tools_ok.
Proof. intros c cp [= <-]. split; reflexivity. Qed.



(** The mapping of [GetManagedObjects] shows the state at the time of the
    call: after the connection, the value of the notify characteristic is
    the marker pushed last, and the value written does not appear (the
    read/write characteristic has no Value property). *)
Example managed_objects_after_connect :
  reachable Json.loads app_connected
  ∧ ∃ mapped props,
      result (Application.GetManagedObjects app_connected) = inr mapped
      ∧ mapped !! "/org/bluez/example/service0/char_notify1" = Some props
      ∧ (props !! GATT_CHRC_IFACE) ≫= (.!! "Value")
        = Some (DArray_y (bytes_of connected_marker)).
Proof.
  split; [repeat constructor|].
  eexists _, _. rewrite GetManagedObjects_run.
  split; [reflexivity|]. split; reflexivity.
Qed.

(** * Further properties of the program *)

(** ** The records of a scan *)

Section ScanFormat.

(** X1. Every record of a scan is taken from the output of the tool as it
    stands: its address is 17 characters of the class of hexadecimal
    digits and colons and follows an address label in the output, and its
    name is not empty, holds neither a double quote nor a line break, and
    stands between double quotes after an ESSID label in the output. *)
Theorem X1_scan_record_format (output : pystr) (n : network) :
  n ∈ parse_scan output →
  length (address n) = 17%nat
  ∧ Forall (λ c, Re.address_char c = true) (address n)
  ∧ essid n ≠ [] ∧ (dquote ∉ essid n) ∧ (newline ∉ essid n)
  ∧ (∃ pre post, output = pre ++ lit " - Address: " ++ address n ++ post)
  ∧ (∃ pre post, output = pre ++ lit "ESSID:" ++ [dquote] ++ essid n ++ [dquote] ++ post).
Proof.
  intros Hn. pose proof Hn as Hne.
  rewrite parse_scan_kept in Hne. apply kept_fresh in Hne as [_ Hne].
  apply parse_scan_elem in Hn as [(H1 & H2 & H3)%findall_cell (H4 & H5 & H6)%findall_essid].
  rewrite Forall_forall. rewrite forallb_forall in H2.
  repeat split; try done. intros c Hc. apply H2. by apply list_elem_of_In.
Qed.
End ScanFormat.

Lemma X1_scan_record_format_witness :
  length (address cafe) = 17%nat ∧ (dquote ∉ essid cafe) ∧ (newline ∉ essid cafe).
Proof.
  destruct (X1_scan_record_format named_block cafe) as (H1 & _ & _ & H4 & H5 & _).
  - apply (bool_decide_unpack _). by vm_compute.
  - split; [exact H1|]. split; [exact H4|exact H5].
Defined.

(** ** The scan command *)

Section Dumps.
Import Json.

Lemma ascii_app s1 s2 : ascii (s1 ++ s2) ↔ ascii s1 ∧ ascii s2.
Proof. unfold ascii. rewrite forallb_app. apply andb_true_iff. Qed.

Lemma ascii_cons c s : ascii (c :: s) ↔ c < 128 ∧ ascii s.
Proof. unfold ascii. simpl. rewrite andb_true_iff, N.ltb_lt. done. Qed.

Lemma hex_digit_ascii n : n < 16 → hex_digit n < 128.
Proof. intros. unfold hex_digit. destruct (N.ltb_spec n 10); lia. Qed.

Lemma u_escape_ascii n : n < 0x10000 → ascii (u_escape n).
Proof.
  intros Hn. unfold u_escape. apply ascii_app. split; [done|].
  repeat (apply ascii_cons; split; [apply hex_digit_ascii; divlia|]). done.
Qed.

Lemma escape_char_ascii c : c < 0x110000 → ascii (escape_char c).
Proof.
  intros Hc. unfold escape_char.
  repeat (match goal with |- ascii (if ?b then _ else _) => destruct b eqn:? end; [done|]).
  destruct (_ && _) eqn:Hp.
  { apply andb_true_iff in Hp as [_ Hp%N.leb_le]. apply ascii_cons. split; [lia|done]. }
  destruct (N.ltb_spec c 0x10000); [by apply u_escape_ascii|].
  apply ascii_app. split; apply u_escape_ascii; divlia.
Qed.

Lemma scalar_lt c : scalar c = true → c < 0x110000.
Proof. unfold scalar. intros [H%N.ltb_lt _]%andb_true_iff. done. Qed.

Lemma encode_string_ascii s : is_text s → ascii (encode_string s).
Proof.
  intros Hs. unfold encode_string. apply ascii_app. split; [done|].
  apply ascii_app. split; [|done].
  induction s as [|c s IH]; [done|]. csimpl.
  apply andb_true_iff in Hs as [Hc Hs].
  apply ascii_app. split; [by apply escape_char_ascii, scalar_lt|by apply IH].
Qed.

Lemma dumps_network_ascii n :
  is_text (address n) → is_text (essid n) → ascii (dumps_network n).
Proof.
  intros Ha He. unfold dumps_network.
  rewrite !ascii_app. repeat split; try done; by apply encode_string_ascii.
Qed.

Lemma dumps_ascii networks :
  (∀ n, n ∈ networks → is_text (address n) ∧ is_text (essid n)) →
  ascii (dumps networks).
Proof.
  intros H. unfold dumps. apply ascii_app. split; [done|]. apply ascii_app. split; [|done].
  induction networks as [|n l IH]; [done|].
  assert (ascii (dumps_network n)) as Hn.
  { destruct (H n) as [? ?]; [left|]. by apply dumps_network_ascii. }
  assert (ascii (join (lit ", ") (dumps_network <$> l))) as Hl.
  { apply IH. intros m Hm. apply H. by right. }
  destruct l as [|m l]; [done|].
  change (ascii (dumps_network n ++ lit ", " ++ join (lit ", ") (dumps_network <$> m :: l))).
  apply ascii_app. split; [done|]. apply ascii_app. by split.
Qed.

Lemma encode_ascii s : ascii s → Utf8.encode s = Some (byte_of_N <$> s).
Proof.
  induction s as [|c s IH]; [done|]. intros [Hc Hs]%ascii_cons. simpl.
  rewrite encode_char_1 by lia. rewrite IH by done. done.
Qed.

Lemma is_text_infix pre g post : is_text (pre ++ g ++ post) → is_text g.
Proof. intros [_ [H _]%is_text_app]%is_text_app. done. Qed.

Lemma parse_scan_text output n :
  is_text output → n ∈ parse_scan output → is_text (address n) ∧ is_text (essid n).
Proof.
  intros Ht [(_ & _ & p1 & q1 & H1)%findall_cell
               (_ & _ & p2 & q2 & H2)%findall_essid]%parse_scan_elem.
  split.
  - rewrite H1, !is_text_app in Ht. tauto.
  - rewrite H2, !is_text_app in Ht. tauto.
Qed.

End Dumps.

Section ScanWrite.
Variable json_loads : pystr → exn + pyvalue.
Variable process : command → launch.

Lemma call_notify_char_run {A} n (m : M NotifyCharacteristic.t A) s :
  notify_at n s →
  call_notify_char m s = let '(r, n', t) := m n in (r, with_notify n' s, t).
Proof.
  intros Hn. unfold call_notify_char, mbind, M_bind, bind, get. simpl.
  unfold notify_at in Hn. rewrite Hn. unfold zoom.
  by destruct (m n) as [[r n'] t].
Qed.

Lemma with_notify_id n s : notify_at n s → with_notify n s = s.
Proof.
  unfold notify_at, with_notify. intros H. destruct s; simpl in *.
  unfold MyService.set_characteristics; simpl. f_equal. by apply list_insert_id.
Qed.

Lemma signals_app t1 t2 : signals (t1 ++ t2) = signals t1 ++ signals t2.
Proof. apply omap_app. Qed.

#[local] Arguments notify_char_send_notification : simpl never.
#[local] Arguments Json.dumps : simpl never.
#[local] Arguments parse_scan : simpl never.

Lemma dispatch_scan_run value n s :
  Utf8.decode value = Some (lit "SCAN_WIFI") → notify_at n s →
  (∀ cp, process iwlist_scan = Started (inr cp) → is_text (stdout cp)) →
  let outcome := process iwlist_scan in
  let networks :=
    match outcome with
    | Started (inr cp) => if (returncode cp =? 0)%Z then parse_scan (stdout cp) else []
    | _ => []
    end in
  let bs := byte_of_N <$> Json.dumps networks in
  let d := dispatch json_loads process value s in
  result d = inr Returned
  ∧ runs (trace d) = match outcome with NotStarted _ => [] | Started _ => [iwlist_scan] end
  ∧ pushes (trace d) = (if bool_decide (networks = []) then [] else [Json.dumps networks])
  ∧ (if bool_decide (networks = []) || negb (NotifyCharacteristic.notifying n)
     then final d = s ∧ signals (trace d) = []
     else final d = with_notify (NotifyCharacteristic.set_value bs n) s
          ∧ signals (trace d) = [(GATT_CHRC_IFACE, [("Value", DArray_y bs)], [])]).
Proof.
  intros H Hn Ht outcome networks bs d. subst d.
  unfold dispatch, bytes_decode. rewrite H.
  rewrite bind_ret_run, bind_print_run by done.
  rewrite bool_decide_eq_true_2 by done.
  unfold mbind, M_bind, bind, try_except.
  rewrite scan_networks_run. subst networks outcome.
  destruct (process iwlist_scan) as [e|[e|cp]] eqn:Hp.
  - by destruct e.
  - by destruct e.
  - specialize (Ht cp eq_refl).
    assert (∀ networks, networks = parse_scan (stdout cp) → networks ≠ [] →
            Utf8.encode (Json.dumps networks) = Some (byte_of_N <$> Json.dumps networks))
      as Hbs.
    { intros ? -> Hne. apply encode_ascii, dumps_ascii. intros m Hm.
      by eapply parse_scan_text. }
    destruct (returncode cp =? 0)%Z; [|done].
    specialize (Hbs _ eq_refl). subst bs.
    case_bool_decide as Hnets; [by rewrite Hnets|].
    rewrite print_run by done.
    unfold notify_char_send_notification. rewrite (call_notify_char_run n) by done.
    destruct (NotifyCharacteristic.notifying n) eqn:Hsub.
    + rewrite (send_notification_subscribed _ _ _ Hsub (Hbs Hnets)). done.
    + rewrite (send_notification_unsubscribed _ _ Hsub). simpl.
      by rewrite with_notify_id.
Qed.

(** X2. The write of [SCAN_WIFI], on a service with its two
    characteristics, when the output of a scan tool that ran to its end
    is text.  Whatever becomes of the scan tool - it cannot be started,
    it is started and its output cannot be read, or it runs to its end -
    the write returns normally, starts no other process, and never
    stores its bytes: a read returns what was stored before.  It pushes the
    JSON text of the records found, once, and nothing when the tool fails
    or finds no record.  That text is ASCII, so it is always encoded: to a
    subscribed client goes one signal with its bytes, which become the
    value of the notify characteristic; without a subscription, or
    without a record, the state is left as it was and there is no signal. *)
Theorem X2_scan_wifi_write (self : nat) (c : MyCharacteristic.t) (n : NotifyCharacteristic.t)
    (s : MyService.t) (value : list byte) (options options' : properties) :
  chrc_at self c s → notify_at n s →
  (∀ cp, process iwlist_scan = Started (inr cp) → is_text (stdout cp)) →
  Utf8.decode value = Some (lit "SCAN_WIFI") →
  let outcome := process iwlist_scan in
  let networks :=
    match outcome with
    | Started (inr cp) => if (returncode cp =? 0)%Z then parse_scan (stdout cp) else []
    | _ => []
    end in
  let bs := byte_of_N <$> Json.dumps networks in
  let w := WriteValue json_loads process self value options s in
  result w = inr ()
  ∧ runs (trace w) = match outcome with NotStarted _ => [] | Started _ => [iwlist_scan] end
  ∧ pushes (trace w) = (if bool_decide (networks = []) then [] else [Json.dumps networks])
  ∧ (if bool_decide (networks = []) || negb (NotifyCharacteristic.notifying n)
     then final w = s ∧ signals (trace w) = []
     else final w = with_notify (NotifyCharacteristic.set_value bs n) s
          ∧ signals (trace w) = [(GATT_CHRC_IFACE, [("Value", DArray_y bs)], [])])
  ∧ result (ReadValue self options' (final w)) = inr (MyCharacteristic.value c).
Proof.
  intros Hc Hn Ht Hv outcome networks bs w.
  destruct (WriteValue_run json_loads process self c value options s Hc)
    as (Hr & Hf & Hp & Hru & Hs).
  destruct (dispatch_scan_run value n s Hv Hn Ht) as (Hd & Hdr & Hdp & Hds).
  fold outcome networks bs in Hdr, Hdp, Hds. fold w in Hr, Hf, Hp, Hru, Hs.
  unfold returned in Hf. rewrite Hd in Hf.
  split; [done|]. split; [congruence|]. split; [congruence|].
  split.
  - rewrite Hf, Hs. done.
  - pose proof (read_after_write json_loads process self c s value options options' Hc) as Hrd.
    simpl in Hrd. unfold returned in Hrd. rewrite Hd in Hrd. done.
Qed.

End ScanWrite.

Lemma tools_scanning_text cp : tools_scanning iwlist_scan = Started (inr cp) → is_text (stdout cp).
Proof. by intros [= <-]. Qed.

Lemma X2_scan_wifi_write_witness :
  let w := WriteValue Json.loads tools_scanning 0 scan_command ∅ service0_subscribed in
  runs (trace w) = [iwlist_scan]
  ∧ pushes (trace w) = [Json.dumps [cafe]]
  ∧ result (ReadValue 0 ∅ (final w)) = inr ["000"%byte].
Proof.
  destruct (X2_scan_wifi_write Json.loads tools_scanning 0 chrc0
              (NotifyCharacteristic.set_notifying true notify0) service0_subscribed
              scan_command ∅ ∅ eq_refl eq_refl tools_scanning_text eq_refl)
    as (_ & Hr & Hp & _ & Hd).
  split; [exact Hr|]. split; [exact Hp|exact Hd].
Defined.

(** ** What is stored *)

Section Writes.
Variable json_loads : pystr → exn + pyvalue.

#[local] Arguments notify_char_send_notification : simpl never.
#[local] Arguments scan_status : simpl never.








End Writes.


(** ** Commands and other writes *)

Section Leads.
Context {S : Type}.







End Leads.

Section Commands.
Variable json_loads : pystr → exn + pyvalue.
Variable process : command → launch.




End Commands.



(** ** How much a write can do *)

Lemma within_le {S A} {count} k k' (m : M S A) :
  within count k m → (k ≤ k')%nat → within count k' m.
Proof. intros Hm Hk s. specialize (Hm s). lia. Qed.

Section Bounds.
Open Scope nat_scope.
Variable count : list event → nat.
Hypothesis count_nil : count [] = 0%nat.
Hypothesis count_app : ∀ t1 t2, count (t1 ++ t2) = (count t1 + count t2)%nat.
Hypothesis count_print : ∀ l, count [Print l] = 0%nat.

Lemma within_ret {S A} (a : A) : within count 0 (mret a : M S A).
Proof using All. intros s. simpl. by rewrite count_nil. Qed.

Lemma within_raise {S A} e : within count 0 (raise e : M S A).
Proof using All. intros s. simpl. by rewrite count_nil. Qed.

Lemma within_get {S} : within count 0 (get : M S S).
Proof using All. intros s. simpl. by rewrite count_nil. Qed.

Lemma within_put {S} (s' : S) : within count 0 (put s').
Proof using All. intros s. simpl. by rewrite count_nil. Qed.

Lemma within_print {S} l : within count 0 (print l : M S unit).
Proof using All.
  intros s. unfold print. destruct (printable l); simpl.
  - by rewrite count_print.
  - by rewrite count_nil.
Qed.

Lemma within_bind {S A B} k1 k2 (m : M S A) (k : A → M S B) :
  within count k1 m → (∀ a, within count k2 (k a)) → within count (k1 + k2) (m ≫= k).
Proof using All.
  intros Hm Hk s. specialize (Hm s). unfold mbind, M_bind, bind.
  destruct (m s) as [[[e|a] s1] t1]; simpl in *; [lia|].
  specialize (Hk a s1). destruct (k a s1) as [[r' s2] t2]. simpl in *.
  rewrite count_app. lia.
Qed.

Lemma within_bind0 {S A B} k2 (m : M S A) (k : A → M S B) :
  within count 0 m → (∀ a, within count k2 (k a)) → within count k2 (m ≫= k).
Proof using All. intros Hm Hk. by apply (within_bind 0 k2). Qed.

Lemma within_try {S A} k1 k2 (m : M S A) h :
  within count k1 m → (∀ e, within count k2 (h e)) → within count (k1 + k2) (try_except m h).
Proof using All.
  intros Hm Hh s. specialize (Hm s). unfold try_except.
  destruct (m s) as [[[e|a] s1] t1]; simpl in *; [|lia].
  specialize (Hh e s1). destruct (h e s1) as [[r' s2] t2]. simpl in *.
  rewrite count_app. lia.
Qed.

Lemma within_call_chrc {A} k self (m : M MyCharacteristic.t A) :
  within count k m → within count k (call_chrc self m).
Proof using All.
  intros Hm s. unfold call_chrc, mbind, M_bind, bind, get. simpl.
  destruct (MyService.characteristics s !! self) as [[c|n]|]; simpl;
    try (rewrite count_nil; lia).
  unfold zoom. specialize (Hm c). destruct (m c) as [[r' c'] t]. done.
Qed.

Lemma within_call_notify_char {A} k (m : M NotifyCharacteristic.t A) :
  within count k m → within count k (call_notify_char m).
Proof using All.
  intros Hm s. unfold call_notify_char, mbind, M_bind, bind, get. simpl.
  destruct (MyService.characteristics s !! MyService.notify_char s) as [[c|n]|]; simpl;
    try (rewrite count_nil; lia).
  unfold zoom. specialize (Hm n). destruct (m n) as [[r' c'] t]. done.
Qed.

Variables r p : nat.
Hypothesis count_run : ∀ c, (count [Run c] ≤ r)%nat.
Hypothesis count_push : ∀ message, within count p (NotifyCharacteristic.send_notification message).

Variable json_loads : pystr → exn + pyvalue.
Variable process : command → launch.

Lemma within_subprocess_run {S} c check :
  within count r (subprocess_run (S:=S) process c check).
Proof using All.
  unfold subprocess_run.
  destruct (negb (fs_encodable c)); [eapply within_le; [apply within_raise|lia]|].
  destruct (has_nul c); [eapply within_le; [apply within_raise|lia]|].
  destruct (process c) as [e|outcome]; [eapply within_le; [apply within_raise|lia]|].
  eapply within_le.
  - apply (within_bind r 0); [intros s; apply count_run|intros _].
    destruct outcome as [e|cp]; [apply within_raise|].
    destruct (_ && _); [apply within_raise|apply within_ret].
  - lia.
Qed.

Lemma within_scan_networks {S} : within count r (scan_networks (S:=S) process).
Proof using All.
  unfold scan_networks. eapply within_le.
  - apply (within_try r 0).
    + eapply within_le; [apply (within_bind r 0)|lia].
      * apply within_subprocess_run.
      * intros cp. apply within_ret.
    + intros e. destruct e; try apply within_raise.
      apply within_bind0; [apply within_print|intros _; apply within_ret].
  - lia.
Qed.

Lemma within_notify_char_send_notification message :
  within count p (notify_char_send_notification message).
Proof using All. apply within_call_notify_char, count_push. Qed.

Ltac silent :=
  repeat first
    [ apply within_ret | apply within_raise | apply within_print
    | apply within_bind0; [|intros ?] ].

Lemma within_dispatch value :
  within count (r + (p + (r + p))) (dispatch json_loads process value).
Proof using All.
  unfold dispatch, bytes_decode, data_get.
  apply within_bind0; [destruct (Utf8.decode value); silent|intros text].
  apply within_bind0; [silent|intros _].
  case_bool_decide.
  - apply (within_le (r + p + 0)); [|lia]. apply within_bind; [|intros _; silent].
    apply (within_le (r + p + 0)); [|lia]. apply within_try; [|intros e; silent].
    apply within_bind; [apply within_scan_networks|intros networks].
    case_bool_decide.
    + apply (within_le 0); [|lia]. silent.
    + apply within_bind0; [silent|intros _]. apply within_notify_char_send_notification.
  - apply within_bind0; [destruct (json_loads text); silent|intros data].
    apply within_bind0; [silent|intros _].
    apply within_bind0; [destruct data; silent|intros ssid].
    apply within_bind0; [destruct data; silent|intros password].
    apply within_bind0; [silent|intros _].
    destruct (_ || _); [apply (within_le 0); [|lia]; silent|].
    apply within_bind; [apply within_subprocess_run|intros cp].
    apply within_bind0; [silent|intros _].
    apply within_bind; [apply within_notify_char_send_notification|intros _].
    apply within_bind; [apply within_subprocess_run|intros cp'].
    apply (within_le (p + 0)); [|lia]. apply within_bind; [|intros _; silent].
    destruct (_ =? _)%Z.
    + apply within_bind0; [silent|intros _]. apply within_notify_char_send_notification.
    + apply within_bind0; [silent|intros _].
      apply (within_le (p + 0)); [|lia].
      apply within_bind; [apply within_notify_char_send_notification|intros _; silent].
Qed.

Lemma within_WriteValue self value options :
  within count (r + (p + (r + p))) (WriteValue json_loads process self value options).
Proof using All.
  unfold WriteValue.
  apply (within_le (r + (p + (r + p)) + 0)); [|lia]. apply within_bind.
  - apply (within_le (r + (p + (r + p)) + 0)); [|lia].
    apply within_try; [apply within_dispatch|intros e].
    apply within_bind0; [destruct e; silent|intros _; silent].
  - intros [|]; [silent|]. unfold store_value. apply within_call_chrc.
    apply within_bind0; [apply within_get|intros c; apply within_put].
Qed.

End Bounds.

Section WriteBounds.
Variable json_loads : pystr → exn + pyvalue.
Variable process : command → launch.

Lemma send_notification_trace message n :
  let t := trace (NotifyCharacteristic.send_notification message n) in
  runs t = [] ∧ pushes t = [message] ∧ (length (signals t) ≤ 1)%nat.
Proof.
  destruct (NotifyCharacteristic.notifying n) eqn:Hn.
  - destruct (Utf8.encode message) as [bs|] eqn:He.
    + by rewrite (send_notification_subscribed _ _ _ Hn He).
    + rewrite (send_notification_unencodable _ _ Hn He). simpl. auto.
  - rewrite (send_notification_unsubscribed _ _ Hn). simpl. auto.
Qed.

(** X5. No write, whatever its bytes, the tools and the state, starts
    more than two processes, calls [send_notification] more than twice or
    sends more than two signals. *)
Theorem X5_write_bounds (self : nat) (value : list byte) (options : properties)
    (s : MyService.t) :
  let w := WriteValue json_loads process self value options s in
  (length (runs (trace w)) ≤ 2)%nat
  ∧ (length (pushes (trace w)) ≤ 2)%nat
  ∧ (length (signals (trace w)) ≤ 2)%nat.
Proof.
  intros w. subst w. split; [|split].
  - apply (within_WriteValue (λ t, length (runs t)) eq_refl
             (λ t1 t2, eq_trans (f_equal length (runs_app t1 t2)) (length_app _ _))
             (λ _, eq_refl) 1 0).
    + by intros c.
    + intros message n. destruct (send_notification_trace message n) as (H & _ & _).
      by rewrite H.
  - apply (within_WriteValue (λ t, length (pushes t)) eq_refl
             (λ t1 t2, eq_trans (f_equal length (pushes_app t1 t2)) (length_app _ _))
             (λ _, eq_refl) 0 1).
    + by intros c.
    + intros message n. destruct (send_notification_trace message n) as (_ & H & _).
      by rewrite H.
  - apply (within_WriteValue (λ t, length (signals t)) eq_refl
             (λ t1 t2, eq_trans (f_equal length (signals_app t1 t2)) (length_app _ _))
             (λ _, eq_refl) 0 1).
    + by intros c.
    + intros message n. by destruct (send_notification_trace message n) as (_ & _ & H).
Qed.
End WriteBounds.

(** ** Relations between the state before, the events and the state after *)

Section Follows.
Context {S : Type} (R : S → list event → S → Prop).
Hypothesis R_nil : ∀ s, R s [] s.
Hypothesis R_app : ∀ s t1 s1 t2 s2, R s t1 s1 → R s1 t2 s2 → R s (t1 ++ t2) s2.
Hypothesis R_print : ∀ s l, R s [Print l] s.
Hypothesis R_run : ∀ s c, R s [Run c] s.

Lemma follows_ret {A} (a : A) : follows R (mret a : M S A).
Proof using R_nil. intros s. apply R_nil. Qed.

Lemma follows_raise {A} e : follows R (raise e : M S A).
Proof using R_nil. intros s. apply R_nil. Qed.

Lemma follows_print l : follows R (print l : M S unit).
Proof using R_nil R_print.
  intros s. unfold print. destruct (printable l); [apply R_print|apply R_nil].
Qed.

Lemma follows_bind {A B} (m : M S A) (k : A → M S B) :
  follows R m → (∀ a, follows R (k a)) → follows R (m ≫= k).
Proof using R_app.
  intros Hm Hk s. specialize (Hm s). unfold mbind, M_bind, bind.
  destruct (m s) as [[[e|a] s1] t1]; [done|].
  specialize (Hk a s1). destruct (k a s1) as [[r s2] t2]. by eapply R_app.
Qed.

Lemma follows_try {A} (m : M S A) h :
  follows R m → (∀ e, follows R (h e)) → follows R (try_except m h).
Proof using R_app.
  intros Hm Hh s. specialize (Hm s). unfold try_except.
  destruct (m s) as [[[e|a] s1] t1]; [|done].
  specialize (Hh e s1). destruct (h e s1) as [[r s2] t2]. by eapply R_app.
Qed.

Lemma follows_subprocess_run process c check :
  follows R (subprocess_run (S:=S) process c check).
Proof using R_nil R_app R_run.
  unfold subprocess_run.
  destruct (negb (fs_encodable c)); [apply follows_raise|].
  destruct (has_nul c); [apply follows_raise|].
  destruct (process c) as [e|outcome]; [apply follows_raise|].
  apply follows_bind; [intros s; apply R_run|intros _].
  destruct outcome as [e|cp]; [apply follows_raise|].
  destruct (_ && _); [apply follows_raise|apply follows_ret].
Qed.

End Follows.

Ltac follow_step :=
  lazymatch goal with
  | |- follows _ (mbind _ _) => apply follows_bind; [by auto| |intros ?]
  | |- follows _ (try_except _ _) => apply follows_try; [by auto| |intros ?]
  | |- follows _ (if ?b then _ else _) => destruct b
  | |- follows _ (match ?x with _ => _ end) => destruct x
  | |- follows _ (mret _) => apply follows_ret; by auto
  | |- follows _ (raise _) => apply follows_raise; by auto
  | |- follows _ (print _) => apply follows_print; by auto
  | |- follows _ (subprocess_run _ _ _) => apply follows_subprocess_run; by auto
  | |- follows _ _ => solve [auto]
  end.

Ltac follow := repeat follow_step.

Section FollowsService.
Variable R : MyService.t → list event → MyService.t → Prop.
Hypothesis R_nil : ∀ s, R s [] s.
Hypothesis R_app : ∀ s t1 s1 t2 s2, R s t1 s1 → R s1 t2 s2 → R s (t1 ++ t2) s2.
Hypothesis R_print : ∀ s l, R s [Print l] s.
Hypothesis R_run : ∀ s c, R s [Run c] s.
Hypothesis R_push : ∀ message, follows R (notify_char_send_notification message).
Hypothesis R_store : ∀ self value, follows R (store_value self value).
Variable json_loads : pystr → exn + pyvalue.

Lemma follows_WriteValue process self value options :
  follows R (WriteValue json_loads process self value options).
Proof using All.
  unfold WriteValue, dispatch, scan_networks, bytes_decode, data_get. follow.
Qed.

End FollowsService.

(** ** Subscription, signals and the value of the notify characteristic *)

Section NotifyState.

Lemma call_notify_char_cases {A} (m : M NotifyCharacteristic.t A) s :
  (∃ n, notify_at n s
        ∧ call_notify_char m s = let '(r, n', t) := m n in (r, with_notify n' s, t))
  ∨ (subscribed s = None ∧ notify_value s = None
     ∧ call_notify_char m s = (inl AttributeError, s, [])).
Proof.
  unfold subscribed, notify_value.
  destruct (MyService.characteristics s !! MyService.notify_char s) as [[c|n]|] eqn:Hn.
  - right. unfold call_notify_char, mbind, M_bind, bind, get. simpl. by rewrite Hn.
  - left. exists n. split; [done|]. by apply call_notify_char_run.
  - right. unfold call_notify_char, mbind, M_bind, bind, get. simpl. by rewrite Hn.
Qed.

Lemma call_chrc_cases {A} self (m : M MyCharacteristic.t A) s :
  (∃ c, chrc_at self c s
        ∧ call_chrc self m s = let '(r, c', t) := m c in (r, with_chrc self c' s, t))
  ∨ call_chrc self m s = (inl AttributeError, s, []).
Proof.
  unfold call_chrc, mbind, M_bind, bind, get. simpl.
  destruct (MyService.characteristics s !! self) as [[c|n]|] eqn:Hn; auto.
  left. exists c. split; [done|]. unfold zoom. by destruct (m c) as [[r c'] t].
Qed.

Lemma notify_at_subscribed n s :
  notify_at n s →
  subscribed s = Some (NotifyCharacteristic.notifying n)
  ∧ notify_value s = Some (NotifyCharacteristic.value n).
Proof. unfold notify_at, subscribed, notify_value. by intros ->. Qed.

Lemma with_chrc_notify self c c' s :
  chrc_at self c s →
  subscribed (with_chrc self c' s) = subscribed s
  ∧ notify_value (with_chrc self c' s) = notify_value s.
Proof.
  unfold chrc_at, subscribed, notify_value, with_chrc. intros Hc. destruct s; simpl in *.
  destruct (decide (notify_char = self)) as [->|Hne].
  - rewrite list_lookup_insert_eq by (by eapply lookup_lt_Some). by rewrite Hc.
  - by rewrite list_lookup_insert_ne.
Qed.

Lemma store_value_notify self value s :
  trace (store_value self value s) = []
  ∧ subscribed (final (store_value self value s)) = subscribed s
  ∧ notify_value (final (store_value self value s)) = notify_value s.
Proof.
  unfold store_value.
  destruct (call_chrc_cases self (c ← get; put (MyCharacteristic.set_value value c)) s)
    as [(c & Hc & ->)| ->]; [|done].
  simpl. split; [done|]. by apply (with_chrc_notify self c).
Qed.

Lemma value_after_app v t1 t2 :
  value_after v (t1 ++ t2) = value_after (value_after v t1) t2.
Proof. apply foldl_app. Qed.

Lemma value_after_quiet v t : signals t = [] → value_after v t = v.
Proof.
  revert v. induction t as [|ev t IH]; intros v Ht; [done|].
  destruct ev; try (by apply IH). done.
Qed.

Lemma track_app s t1 s1 t2 s2 : tracks s t1 s1 → tracks s1 t2 s2 → tracks s (t1 ++ t2) s2.
Proof. unfold tracks. intros H1 H2. by rewrite value_after_app, <- H1. Qed.

Lemma track_call_notify_char {A} (m : M NotifyCharacteristic.t A) :
  (∀ n, Some (NotifyCharacteristic.value (final (m n)))
        = value_after (Some (NotifyCharacteristic.value n)) (trace (m n))) →
  follows tracks (call_notify_char m).
Proof.
  intros Hm s. unfold tracks.
  destruct (call_notify_char_cases m s) as [(n & Hn & ->)|(_ & Hv & ->)]; [|done].
  specialize (Hm n). destruct (m n) as [[r n'] t]. unfold final, trace in *. simpl in *.
  destruct (notify_at_subscribed _ _ Hn) as [_ ->].
  destruct (notify_at_subscribed _ _ (notify_at_with_notify n n' s Hn)) as [_ ->]. done.
Qed.

Lemma track_push message : follows tracks (notify_char_send_notification message).
Proof.
  apply track_call_notify_char. intros n.
  destruct (NotifyCharacteristic.notifying n) eqn:Hn.
  - destruct (Utf8.encode message) as [bs|] eqn:He.
    + by rewrite (send_notification_subscribed _ _ _ Hn He).
    + by rewrite (send_notification_unencodable _ _ Hn He).
  - by rewrite (send_notification_unsubscribed _ _ Hn).
Qed.

Lemma track_store self value : follows tracks (store_value self value).
Proof.
  intros s. unfold tracks. destruct (store_value_notify self value s) as (-> & _ & ->). done.
Qed.

Lemma track_serve json_loads call : follows tracks (serve json_loads call).
Proof.
  destruct call as [process self value options| |]; simpl.
  - apply follows_WriteValue; try done.
    + apply track_app.
    + apply track_push.
    + apply track_store.
  - by apply track_call_notify_char.
  - by apply track_call_notify_char.
Qed.

Lemma quiet_app s t1 s1 t2 s2 : quiet s t1 s1 → quiet s1 t2 s2 → quiet s (t1 ++ t2) s2.
Proof.
  intros [H1 Hs1] [H2 Hs2]. split; [congruence|]. intros Hs.
  rewrite signals_app, Hs1, Hs2; [done|congruence|done].
Qed.

Lemma quiet_push message : follows quiet (notify_char_send_notification message).
Proof.
  intros s. unfold notify_char_send_notification.
  destruct (call_notify_char_cases (NotifyCharacteristic.send_notification message) s)
    as [(n & Hn & ->)|(_ & _ & ->)]; [|done].
  destruct (notify_at_subscribed _ _ Hn) as [Hs _].
  assert (∀ n' t, NotifyCharacteristic.notifying n' = NotifyCharacteristic.notifying n →
                  (NotifyCharacteristic.notifying n = false → signals t = []) →
                  quiet s t (with_notify n' s)) as Hq.
  { intros n' t Hn' Ht. split.
    - destruct (notify_at_subscribed _ _ (notify_at_with_notify n n' s Hn)) as [-> _].
      by rewrite Hs, Hn'.
    - rewrite Hs. intros Hf. apply Ht. destruct (NotifyCharacteristic.notifying n); congruence. }
  destruct (NotifyCharacteristic.notifying n) eqn:Hsub.
  - destruct (Utf8.encode message) as [bs|] eqn:He.
    + rewrite (send_notification_subscribed _ _ _ Hsub He). by apply Hq.
    + rewrite (send_notification_unencodable _ _ Hsub He). by apply Hq.
  - rewrite (send_notification_unsubscribed _ _ Hsub). by apply Hq.
Qed.

Lemma quiet_store self value : follows quiet (store_value self value).
Proof.
  intros s. destruct (store_value_notify self value s) as (-> & Hs & _). by split.
Qed.

Lemma quiet_WriteValue json_loads process self value options :
  follows quiet (WriteValue json_loads process self value options).
Proof.
  apply follows_WriteValue; try done.
  - apply quiet_app.
  - apply quiet_push.
  - apply quiet_store.
Qed.

Lemma call_do_call_cases c s :
  (∃ n, notify_at n s
        ∧ call_notify_char (do_call c) s
          = (inr (), with_notify (NotifyCharacteristic.set_notifying (subscribed_by c) n) s,
             [Print (if subscribed_by c then log_StartNotify else log_StopNotify)]))
  ∨ (subscribed s = None ∧ call_notify_char (do_call c) s = (inl AttributeError, s, [])).
Proof.
  destruct (call_notify_char_cases (do_call c) s) as [(n & Hn & ->)|(Hs & _ & ->)]; [|auto].
  left. exists n. split; [done|]. by rewrite do_call_run.
Qed.

Lemma call_do_call_subscribed c s :
  subscribed (final (call_notify_char (do_call c) s))
  = (λ _, subscribed_by c) <$> subscribed s.
Proof.
  destruct (call_do_call_cases c s) as [(n & Hn & ->)|(Hs & ->)]; [|by rewrite Hs].
  unfold final. cbn [fst snd].
  destruct (notify_at_subscribed _ _ Hn) as [-> _].
  by destruct (notify_at_subscribed _ _ (notify_at_with_notify n
                 (NotifyCharacteristic.set_notifying (subscribed_by c) n) s Hn)) as [-> _].
Qed.

Lemma serve_subscribed json_loads call s :
  subscribed (final (serve json_loads call s)) = subscription_after [call] <$> subscribed s.
Proof.
  destruct call as [process self value options| |].
  - destruct (quiet_WriteValue json_loads process self value options s) as [Hq _].
    simpl. rewrite Hq. by destruct (subscribed s).
  - apply (call_do_call_subscribed Start).
  - apply (call_do_call_subscribed Stop).
Qed.

Lemma serve_signals json_loads call s :
  subscribed s ≠ Some true → signals (trace (serve json_loads call s)) = [].
Proof.
  intros Hs. destruct call as [process self value options| |].
  - by apply quiet_WriteValue.
  - change (signals (trace (call_notify_char (do_call Start) s)) = []).
    by destruct (call_do_call_cases Start s) as [(n & Hn & ->)|(_ & ->)].
  - change (signals (trace (call_notify_char (do_call Stop) s)) = []).
    by destruct (call_do_call_cases Stop s) as [(n & Hn & ->)|(_ & ->)].
Qed.

(** X6. Whether a client is subscribed after any series of calls is
    decided by the last [StartNotify] or [StopNotify] among them: no
    write, whatever it does, changes the subscription. *)
Theorem X6_subscription_by_last_call (json_loads : pystr → exn + pyvalue)
    (calls : list host_call) (s : MyService.t) :
  subscribed (run_calls json_loads calls s).1 = subscription_after calls <$> subscribed s.
Proof.
  revert s. induction calls as [|call calls IH]; intros s; [simpl; by destruct (subscribed s)|].
  simpl. specialize (IH (final (serve json_loads call s))).
  destruct (run_calls json_loads calls _) as [s' t]. simpl in *.
  rewrite IH, serve_subscribed. by destruct (subscribed s).
Qed.

(** X7. The signals tell the value of the notify characteristic: after
    any series of calls it holds the bytes carried by the last
    [PropertiesChanged] signal of the series, and the value it had before
    when the series sent none. *)
Theorem X7_signals_carry_value (json_loads : pystr → exn + pyvalue)
    (calls : list host_call) (s : MyService.t) :
  notify_value (run_calls json_loads calls s).1
  = value_after (notify_value s) (run_calls json_loads calls s).2.
Proof.
  revert s. induction calls as [|call calls IH]; intros s; [done|]. simpl.
  specialize (IH (final (serve json_loads call s))).
  destruct (run_calls json_loads calls _) as [s' t]. simpl in *.
  by rewrite value_after_app, <- (track_serve json_loads call s).
Qed.

(** X8. While no client is subscribed nothing is sent: a series of
    calls without [StartNotify], served from a state that is not
    subscribed, sends no signal and leaves the value of the notify
    characteristic as it was, whatever is written. *)
Theorem X8_no_signal_while_unsubscribed (json_loads : pystr → exn + pyvalue)
    (calls : list host_call) (s : MyService.t) :
  subscribed s ≠ Some true → CallStartNotify ∉ calls →
  signals (run_calls json_loads calls s).2 = []
  ∧ notify_value (run_calls json_loads calls s).1 = notify_value s.
Proof.
  revert s. induction calls as [|call calls IH]; intros s Hs Hcalls; [done|]. simpl.
  apply not_elem_of_cons in Hcalls as [Hcall Hcalls].
  pose proof (serve_signals json_loads call s Hs) as Hsig.
  pose proof (track_serve json_loads call s) as Htr. unfold tracks in Htr.
  rewrite (value_after_quiet _ _ Hsig) in Htr.
  assert (subscribed (final (serve json_loads call s)) ≠ Some true) as Hs'.
  { rewrite serve_subscribed. destruct call; try done; by destruct (subscribed s) as [[|]|]. }
  destruct (IH (final (serve json_loads call s)) Hs' Hcalls) as [IH1 IH2].
  destruct (run_calls json_loads calls _) as [s' t]. simpl in *.
  by rewrite signals_app, Hsig, IH1, IH2.
Qed.

End NotifyState.

Lemma X8_no_signal_while_unsubscribed_witness :
  let calls :=
    [CallWriteValue tools_ok 0 (bytes_of (qlit "{'ssid':'Home','password':'secret'}")) ∅;
     CallStopNotify] in
  signals (run_calls Json.loads calls service0).2 = []
  ∧ notify_value (run_calls Json.loads calls service0).1 = Some [].
Proof.
  apply (X8_no_signal_while_unsubscribed Json.loads _ service0).
  - intros H. vm_compute in H. discriminate H.
  - intros H. apply elem_of_cons in H as [H|H]; [discriminate H|].
    apply elem_of_cons in H as [H|H]; [discriminate H|]. by apply elem_of_nil in H.
Defined.

(** ** The object tree *)

Section Evolved.
Variable json_loads : pystr → exn + pyvalue.

Lemma same_object_refl ch : same_object ch ch.
Proof. by destruct ch as [[]|[]]. Qed.

Lemma same_object_trans ch1 ch2 ch3 :
  same_object ch1 ch2 → same_object ch2 ch3 → same_object ch1 ch3.
Proof.
  destruct ch1 as [c1|n1], ch2 as [c2|n2], ch3 as [c3|n3]; simpl; try done.
  - intros -> ->. done.
  - intros -> ->. done.
Qed.

Lemma evolved_refl s : evolved s s.
Proof.
  split; [by destruct s|].
  apply Forall2_same_length_lookup. split; [done|].
  intros i x y Hx Hy. assert (x = y) as -> by congruence. apply same_object_refl.
Qed.

Lemma call_notify_char_evolved {A} s0 (m : M NotifyCharacteristic.t A) :
  (∀ n, same_object (NotifyChrc n) (NotifyChrc (final (m n)))) →
  preserves (evolved s0) (call_notify_char m).
Proof.
  intros Hm s [Hs Hc].
  destruct (call_notify_char_cases m s) as [(n & Hn & ->)|(_ & _ & ->)]; [|done].
  specialize (Hm n). destruct (m n) as [[r n'] t]. unfold final in *. simpl in *.
  split.
  - rewrite Hs. by destruct s0.
  - apply Forall2_insert_r; [done|]. intros x Hx.
    pose proof (Forall2_lookup_lr _ _ _ _ _ _ Hc Hx Hn) as Hxn.
    by eapply same_object_trans.
Qed.

Lemma call_chrc_evolved {A} s0 self (m : M MyCharacteristic.t A) :
  (∀ c, same_object (Chrc c) (Chrc (final (m c)))) →
  preserves (evolved s0) (call_chrc self m).
Proof.
  intros Hm s [Hs Hc].
  destruct (call_chrc_cases self m s) as [(c & Hn & ->)| ->]; [|done].
  specialize (Hm c). destruct (m c) as [[r c'] t]. unfold final in *. simpl in *.
  split.
  - rewrite Hs. by destruct s0.
  - apply Forall2_insert_r; [done|]. intros x Hx.
    pose proof (Forall2_lookup_lr _ _ _ _ _ _ Hc Hx Hn) as Hxn.
    by eapply same_object_trans.
Qed.

Lemma send_notification_same_object message n :
  same_object (NotifyChrc n)
    (NotifyChrc (final (NotifyCharacteristic.send_notification message n))).
Proof.
  destruct (NotifyCharacteristic.notifying n) eqn:Hn.
  - destruct (Utf8.encode message) as [bs|] eqn:He.
    + rewrite (send_notification_subscribed _ _ _ Hn He). by destruct n.
    + rewrite (send_notification_unencodable _ _ Hn He). apply (same_object_refl (NotifyChrc n)).
  - rewrite (send_notification_unsubscribed _ _ Hn). apply (same_object_refl (NotifyChrc n)).
Qed.

Lemma WriteValue_evolved s0 process self value options :
  preserves (evolved s0) (WriteValue json_loads process self value options).
Proof.
  pose proof (preserves_scan_networks process (evolved s0)).
  pose proof (preserves_subprocess_run process (evolved s0)).
  pose proof (λ message, call_notify_char_evolved s0 _ (send_notification_same_object message)).
  assert (preserves (evolved s0) (store_value self value)).
  { apply call_chrc_evolved. by intros []. }
  unfold WriteValue, dispatch, bytes_decode, data_get, notify_char_send_notification.
  preserve.
Qed.

Lemma serve_evolved call s : evolved s (final (serve json_loads call s)).
Proof.
  destruct call as [process self value options| |]; simpl.
  - apply WriteValue_evolved, evolved_refl.
  - apply call_notify_char_evolved; [by intros []|apply evolved_refl].
  - apply call_notify_char_evolved; [by intros []|apply evolved_refl].
Qed.

Lemma reachable_app_state app :
  reachable json_loads app → ∃ v b nv, app = app_state v b nv.
Proof.
  induction 1 as [|app k call _ (v & b & nv & ->)].
  { by exists ["000"%byte], false, []. }
  destruct k as [|k]; [|by exists v, b, nv].
  unfold after_call, app_state at 1. simpl.
  match goal with |- context [serve json_loads call ?s] =>
    destruct (serve_evolved call s) as [Hs Hc]; revert Hs Hc;
    generalize (final (serve json_loads call s)) end.
  intros s' Hs Hc. simpl in Hc.
  apply Forall2_cons_inv_l in Hc as (ch1 & l1 & H1 & Hc & Hl).
  apply Forall2_cons_inv_l in Hc as (ch2 & l2 & H2 & Hc & ->).
  apply Forall2_nil_inv_l in Hc as ->.
  destruct ch1 as [c'|]; [|done]. destruct ch2 as [|n']; [done|].
  exists (MyCharacteristic.value c'), (NotifyCharacteristic.notifying n'),
         (NotifyCharacteristic.value n').
  unfold app_state. do 2 f_equal. rewrite Hs, Hl. simpl in H1, H2.
  rewrite H1, H2. reflexivity.
Qed.

Lemma entries_app_state v b nv :
  entries (app_state v b nv)
  = [ ("/org/bluez/example/service0",
       {[ GATT_SERVICE_IFACE :=
            {[ "UUID" := DString "12345678-1234-5678-1234-56789abcdef1";
               "Primary" := DBoolean true;
               "Characteristics" :=
                 DArray_o ["/org/bluez/example/service0/char0";
                           "/org/bluez/example/service0/char_notify1"] ]} ]});
      ("/org/bluez/example/service0/char0",
       {[ GATT_CHRC_IFACE :=
            {[ "UUID" := DString "12345678-1234-5678-1234-56789abcdef0";
               "Service" := DObjectPath "/org/bluez/example/service0";
               "Flags" := DArray_s ["read"; "write-without-response"] ]} ]});
      ("/org/bluez/example/service0/char_notify1",
       {[ GATT_CHRC_IFACE :=
            {[ "UUID" := DString "12345678-1234-5678-1234-56789abcdef2";
               "Service" := DObjectPath "/org/bluez/example/service0";
               "Flags" := DArray_s ["notify"];
               "Value" := DArray_y nv ]} ]}) ].
Proof. reflexivity. Qed.

Lemma GetManagedObjects_app_state v b nv :
  result (Application.GetManagedObjects (app_state v b nv)) = inr (managed nv).
Proof.
  rewrite GetManagedObjects_run, entries_app_state. reflexivity.
Qed.

(** X9. The object tree is fixed.  In every state the application goes
    through, a call has changed nothing but the last-written value, the
    subscription and the value of the notify characteristic: paths,
    UUIDs, flags and the list of characteristics are as the constructors
    left them, and [GetManagedObjects] returns the same three entries,
    in which only the [Value] of the notify characteristic varies. *)
Theorem X9_static_object_tree (app : Application.t) :
  reachable json_loads app →
  ∃ v b nv,
    app = app_state v b nv
    ∧ result (Application.GetManagedObjects app) = inr (managed nv)
    ∧ last_written app = [v].
Proof.
  intros (v & b & nv & ->)%reachable_app_state. exists v, b, nv.
  split; [done|]. split; [apply GetManagedObjects_app_state|done].
Qed.

End Evolved.

Lemma X9_static_object_tree_witness :
  ∃ v b nv,
    app_connected = app_state v b nv
    ∧ result (Application.GetManagedObjects app_connected) = inr (managed nv).
Proof.
  destruct (X9_static_object_tree Json.loads app_connected ltac:(repeat constructor))
    as (v & b & nv & H1 & H2 & _).
  by exists v, b, nv.
Defined.


Section Links.
Import Application.

Lemma managed_lookup app p x :
  NoDup (object_paths app) → (p, x) ∈ entries app →
  (foldl ins ∅ (entries app) : gmap string interfaces) !! p = Some x.
Proof.
  intros Hnd Hin. rewrite foldl_ins_list_to_map by done.
  by apply elem_of_list_to_map_1.
Qed.

(** X10. The links of the mapping of [GetManagedObjects] agree, for
    every application as the constructors build it: the entry of a
    service lists in [Characteristics] the paths of its characteristics,
    in order, and each of these paths is a key of the mapping whose entry
    names that service in [Service]. *)
Theorem X10_managed_links (app : Application.t) :
  registered app →
  ∃ mapped : gmap string interfaces,
    result (GetManagedObjects app) = inr mapped
    ∧ ∀ svc, svc ∈ services app →
        ∃ sprops paths,
          mapped !! MyService.get_path svc = Some {[ GATT_SERVICE_IFACE := sprops ]}
          ∧ sprops !! "Characteristics" = Some (DArray_o paths)
          ∧ paths = characteristic_get_path <$> MyService.characteristics svc
          ∧ ∀ p, p ∈ paths →
              ∃ cprops,
                mapped !! p = Some {[ GATT_CHRC_IFACE := cprops ]}
                ∧ cprops !! "Service" = Some (DObjectPath (MyService.get_path svc)).
Proof.
  intros (Hroot & Hreg & Hnd). eexists. rewrite GetManagedObjects_run.
  split; [reflexivity|]. intros svc Hsvc.
  eexists _, _. split; [|split; [|split]].
  - apply managed_lookup; [done|]. unfold entries. apply list_elem_of_bind.
    exists svc. split; [by left|done].
  - done.
  - done.
  - intros p (ch & -> & Hch)%list_elem_of_fmap.
    rewrite Forall_forall in Hreg. destruct (Hreg _ Hsvc) as [_ Hchs].
    rewrite Forall_forall in Hchs. specialize (Hchs _ Hch).
    assert ((foldl ins ∅ (entries app) : gmap string interfaces)
              !! characteristic_get_path ch = Some (characteristic_get_properties ch)) as ->.
    { apply managed_lookup; [done|]. unfold entries. apply list_elem_of_bind.
      exists svc. split; [|done]. right. apply list_elem_of_fmap. by exists ch. }
    destruct ch as [c|n]; destruct Hchs as [_ Hs]; simpl; eexists; (split; [done|]);
      unfold MyService.get_path; by rewrite <- Hs.
Qed.

End Links.

Lemma X10_managed_links_witness :
  ∃ mapped : gmap string interfaces,
    result (Application.GetManagedObjects Application.init) = inr mapped
    ∧ ∃ cprops,
        mapped !! "/org/bluez/example/service0/char0" = Some {[ GATT_CHRC_IFACE := cprops ]}
        ∧ cprops !! "Service" = Some (DObjectPath "/org/bluez/example/service0").
Proof.
  destruct (X10_managed_links Application.init init_registered) as (mapped & Hr & H).
  exists mapped. split; [exact Hr|].
  destruct (H service0 (list_elem_of_here _ _)) as (sprops & paths & _ & _ & -> & Hp).
  apply Hp. apply list_elem_of_here.
Defined.

(** ** UTF-8, both ways *)

Section Utf8RoundTrip.

Lemma to_N_byte_of_N n : n < 256 → Byte.to_N (byte_of_N n) = n.
Proof.
  intros Hn. unfold byte_of_N. rewrite N.mod_small by done.
  destruct (Byte.of_N n) as [b|] eqn:Hb.
  - by apply Byte.to_of_N.
  - apply Byte.of_N_None_iff in Hb. lia.
Qed.

Lemma cont_byte c : c < 64 → Utf8.cont (byte_of_N (0x80 + c)) = Some c.
Proof.
  intros Hc. unfold Utf8.cont. rewrite to_N_byte_of_N by lia.
  rewrite (proj2 (N.leb_le 0x80 _)), (proj2 (N.leb_le _ 0xBF)) by lia.
  simpl. f_equal. lia.
Qed.

Lemma accept_ok lo c :
  lo ≤ c → Utf8.is_surrogate c = false → c ≤ 0x10FFFF → Utf8.accept lo c = Some c.
Proof.
  intros H1 H2 H3. unfold Utf8.accept.
  by rewrite (proj2 (N.leb_le lo c)), H2, (proj2 (N.leb_le c _)).
Qed.

Lemma not_surrogate_small c : c < 0xD800 → Utf8.is_surrogate c = false.
Proof. intros H. unfold Utf8.is_surrogate. by rewrite (proj2 (N.leb_gt _ _)). Qed.

Lemma not_surrogate_large c : 0xDFFF < c → Utf8.is_surrogate c = false.
Proof.
  intros H. unfold Utf8.is_surrogate. rewrite (proj2 (N.leb_gt c _)) by done.
  apply andb_false_r.
Qed.

Lemma decode_encode_char c bs rest :
  Utf8.encode_char c = Some bs →
  Utf8.decode (bs ++ rest) = cons c <$> Utf8.decode rest.
Proof.
  unfold Utf8.encode_char.
  destruct (N.ltb_spec c 0x80) as [H1|H1].
  { intros [= <-]. simpl. rewrite to_N_byte_of_N by lia.
    by rewrite (proj2 (N.ltb_lt c 0x80)). }
  destruct (N.ltb_spec c 0x800) as [H2|H2].
  { intros [= <-]. simpl. rewrite to_N_byte_of_N by divlia.
    rewrite (proj2 (N.ltb_ge _ 0x80)) by divlia.
    rewrite (proj2 (N.leb_le 0xC0 _)), (proj2 (N.ltb_lt _ 0xE0)) by divlia. simpl.
    rewrite cont_byte by divlia. simpl.
    replace ((0xC0 + c / 64 - 0xC0) * 64 + c mod 64) with c by divlia.
    rewrite accept_ok; [done|lia|apply not_surrogate_small; lia|lia]. }
  destruct (N.ltb_spec c 0x10000) as [H3|H3].
  { destruct (Utf8.is_surrogate c) eqn:Hs; [done|].
    intros [= <-]. simpl. rewrite to_N_byte_of_N by divlia.
    rewrite (proj2 (N.ltb_ge _ 0x80)) by divlia.
    rewrite (proj2 (N.leb_le 0xC0 _)), (proj2 (N.ltb_ge _ 0xE0)) by divlia. simpl.
    rewrite (proj2 (N.leb_le 0xE0 _)), (proj2 (N.ltb_lt _ 0xF0)) by divlia. simpl.
    rewrite !cont_byte by divlia. simpl.
    replace (((0xE0 + c / 4096 - 0xE0) * 64 + c / 64 mod 64) * 64 + c mod 64) with c
      by divlia.
    rewrite accept_ok; [done|lia|done|lia]. }
  destruct (N.ltb_spec c 0x110000) as [H4|H4]; [|done].
  intros [= <-]. simpl. rewrite to_N_byte_of_N by divlia.
  rewrite (proj2 (N.ltb_ge _ 0x80)) by divlia.
  rewrite (proj2 (N.leb_le 0xC0 _)), (proj2 (N.ltb_ge _ 0xE0)) by divlia. simpl.
  rewrite (proj2 (N.leb_le 0xE0 _)), (proj2 (N.ltb_ge _ 0xF0)) by divlia. simpl.
  rewrite (proj2 (N.leb_le 0xF0 _)), (proj2 (N.ltb_lt _ 0xF8)) by divlia. simpl.
  rewrite !cont_byte by divlia. simpl.
  replace ((((0xF0 + c / 262144 - 0xF0) * 64 + c / 4096 mod 64) * 64 + c / 64 mod 64) * 64
           + c mod 64) with c by divlia.
  rewrite accept_ok; [done|lia|apply not_surrogate_large; lia|lia].
Qed.

(** X11. Decoding and encoding are inverse to each other: bytes decode
    to a text exactly when the text encodes to these bytes.  So the
    bytes of a write that is decoded are the only ones with that text,
    and a client that decodes the value of a notification reads the
    message that was pushed. *)
Theorem X11_utf8_round_trip (s : pystr) (bs : list byte) :
  Utf8.decode bs = Some s ↔ Utf8.encode s = Some bs.
Proof.
  split; [apply decode_encode|].
  revert bs. induction s as [|c s IH]; intros bs; [by intros [= <-]|]. simpl.
  destruct (Utf8.encode_char c) as [b|] eqn:Hc; [|done]. simpl.
  destruct (Utf8.encode s) as [r|] eqn:Hs; [|done]. intros [= <-].
  by rewrite (decode_encode_char _ _ _ Hc), (IH r).
Qed.

End Utf8RoundTrip.

(** ** Start-up and advertisement *)

Section Startup.

Lemma find_adapter_Some {V} (objs : list (string * gmap string V)) p :
  find_adapter objs = Some p ↔
  ∃ i ifs, objs !! i = Some (p, ifs) ∧ is_Some (ifs !! ADAPTER_IFACE)
           ∧ ∀ j q ifs', (j < i)%nat → objs !! j = Some (q, ifs') → ifs' !! ADAPTER_IFACE = None.
Proof.
  induction objs as [|[q ifs] objs IH]; simpl.
  { split; [done|]. by intros (i & ifs & ? & _). }
  case_bool_decide as Ha.
  - split.
    + intros [= ->]. exists 0%nat, ifs. split; [done|]. split; [done|]. intros; lia.
    + intros ([|i] & ifs' & Hi & Hs & Hlt).
      * by injection Hi as -> ->.
      * specialize (Hlt 0%nat q ifs ltac:(lia) eq_refl). rewrite Hlt in Ha.
        by destruct Ha.
  - rewrite IH. split.
    + intros (i & ifs' & Hi & Hs & Hlt). exists (S i), ifs'. split; [done|]. split; [done|].
      intros [|j] q' ifs'' Hj Hq.
      * injection Hq as <- <-. by apply eq_None_not_Some.
      * apply (Hlt j q'); [lia|done].
    + intros ([|i] & ifs' & Hi & Hs & Hlt).
      * injection Hi as <- <-. done.
      * exists i, ifs'. split; [done|]. split; [done|].
        intros j q' ifs'' Hj Hq. apply (Hlt (S j) q'); [lia|done].
Qed.

Lemma find_adapter_None {V} (objs : list (string * gmap string V)) :
  find_adapter objs = None ↔ ∀ p ifs, (p, ifs) ∈ objs → ifs !! ADAPTER_IFACE = None.
Proof.
  induction objs as [|[q ifs] objs IH]; simpl.
  { split; [|done]. intros _ p ifs Hin. by apply elem_of_nil in Hin. }
  case_bool_decide as Ha.
  - split; [done|]. intros H. rewrite (H q ifs) in Ha by left. by destruct Ha.
  - rewrite IH. split.
    + intros H p ifs' [[= -> ->]|Hin]%elem_of_cons; [by apply eq_None_not_Some|by eapply H].
    + intros H p ifs' Hin. apply (H p). by right.
Qed.

(** X12. Start-up.  When no object BlueZ reports has the adapter
    interface, [main] says so and registers nothing.  Otherwise it
    registers, on the first object that has it, in the order of the
    reply, the application under its root path and then the
    advertisement under its own; it never does one registration without
    the other. *)
Theorem X12_startup_registers {V} (objs : list (string * gmap string V)) :
  ((∀ p ifs, (p, ifs) ∈ objs → ifs !! ADAPTER_IFACE = None) → main objs = [SayNoAdapter])
  ∧ (∀ i p ifs,
       objs !! i = Some (p, ifs) → is_Some (ifs !! ADAPTER_IFACE) →
       (∀ j q ifs', (j < i)%nat → objs !! j = Some (q, ifs') → ifs' !! ADAPTER_IFACE = None) →
       p ≠ "" →
       registrations (main objs)
       = [RegisterApplication p "/org/bluez/example";
          RegisterAdvertisement p "/org/bluez/example/advertisement0"])
  ∧ (registrations (main objs) = [] ∨ length (registrations (main objs)) = 2%nat).
Proof.
  split; [|split].
  - intros H%find_adapter_None. unfold main. by rewrite H.
  - intros i p ifs Hi Hs Hlt Hp.
    assert (find_adapter objs = Some p) as Hf by (apply find_adapter_Some; eauto 10).
    unfold main. rewrite Hf. simpl. by rewrite bool_decide_eq_false_2.
  - unfold main. destruct (no_adapter _); [by left|by right].
Qed.

End Startup.

Lemma X12_startup_registers_witness :
  registrations (main bluez_objects)
  = [RegisterApplication "/org/bluez/hci0" "/org/bluez/example";
     RegisterAdvertisement "/org/bluez/hci0" "/org/bluez/example/advertisement0"].
Proof.
  destruct (X12_startup_registers bluez_objects) as (_ & H & _).
  apply (H 1%nat "/org/bluez/hci0" _ eq_refl).
  - by eexists.
  - intros [|j] q ifs' Hj Hq; [|lia]. by injection Hq as <- <-.
  - done.
Defined.


Section AdvertisementProperties.
Variable json_loads : pystr → exn + pyvalue.

Lemma append_assoc (a b c : string) : (a +:+ b) +:+ c = a +:+ (b +:+ c).
Proof.
  induction a as [|x a IH]; [done|].
  change (String x ((a +:+ b) +:+ c) = String x (a +:+ (b +:+ c))). by rewrite IH.
Qed.

Lemma object_path_under_service app p :
  Forall service_registered (Application.services app) → p ∈ object_paths app →
  ∃ rest, p = PATH_BASE +:+ "/service" +:+ rest.
Proof.
  unfold object_paths, entries. intros Hreg Hin.
  apply list_elem_of_fmap in Hin as ([p' props] & -> & Hin). simpl.
  apply list_elem_of_bind in Hin as (svc & Hin & Hsvc).
  rewrite Forall_forall in Hreg. destruct (Hreg _ Hsvc) as [Hpath Hchs].
  apply elem_of_cons in Hin as [[= -> _]|Hin]; [by eexists|].
  apply list_elem_of_fmap in Hin as (ch & [= -> _] & Hch).
  rewrite Forall_forall in Hchs. specialize (Hchs _ Hch).
  destruct ch as [c|n]; destruct Hchs as [Hp _]; simpl;
    unfold MyCharacteristic.get_path, NotifyCharacteristic.get_path;
    rewrite Hp, Hpath; eexists; by rewrite !append_assoc.
Qed.

(** X13. The advertisement and the application fit together.  [GetAll]
    of the advertisement refuses every interface but its own with
    [Invalid interface]; for its own it returns, in every state the
    application goes through, the UUIDs of the services of the
    application as [ServiceUUIDs].  The path of an advertisement is
    neither the root of the application nor the path of one of its
    objects, and two advertisements with different indexes have
    different paths. *)
Theorem X13_advertisement_and_application (index : Z) (interface : string)
    (app : Application.t) :
  let adv := Advertisement.init index in
  (interface ≠ ADVERTISING_IFACE →
     Advertisement.GetAll interface adv = (inl (DBusException "Invalid interface"), adv, []))
  ∧ (reachable json_loads app →
       ∃ props,
         Advertisement.GetAll ADVERTISING_IFACE adv = (inr props, adv, [])
         ∧ props !! "ServiceUUIDs" = Some (DArray_s (MyService.uuid <$> Application.services app)))
  ∧ (registered app →
       (Advertisement.get_path adv ∉ object_paths app)
       ∧ Advertisement.get_path adv ≠ Application.get_path app)
  ∧ (∀ index', Advertisement.get_path (Advertisement.init index') = Advertisement.get_path adv
               → index' = index).
Proof.
  intros adv. split; [|split; [|split]].
  - intros Hi. unfold Advertisement.GetAll, mbind, M_bind, bind, get. simpl.
    by rewrite bool_decide_eq_true_2.
  - intros (v & b & nv & ->)%reachable_app_state. eexists. split; [reflexivity|]. done.
  - intros (Hroot & Hreg & _). split.
    + intros (rest & Hp)%object_path_under_service; [|done].
      unfold Advertisement.get_path, adv, Advertisement.init, Advertisement.PATH_BASE,
        PATH_BASE in Hp. simpl in Hp. discriminate.
    + unfold Application.get_path. rewrite Hroot. done.
  - intros index' Hp. unfold Advertisement.get_path, adv, Advertisement.init in Hp.
    simpl in Hp. apply String.app_inj in Hp. by apply pretty_Z_inj.
Qed.

End AdvertisementProperties.

Lemma X13_advertisement_and_application_witness :
  let adv := Advertisement.init 0 in
  result (Advertisement.GetAll GATT_CHRC_IFACE adv) = inl (DBusException "Invalid interface")
  ∧ (Advertisement.get_path adv ∉ object_paths Application.init).
Proof.
  destruct (X13_advertisement_and_application Json.loads 0 GATT_CHRC_IFACE Application.init)
    as (H1 & _ & H3 & _).
  split; [by rewrite H1|]. by destruct (H3 init_registered).
Defined.

